(** * e-Fuse bring-up of the ES3 bridge boot ROM

    A shallow embedding of [chips/es3tsb/src/es3_efuse.c]: the bit counter
    [count_ones], the Hamming-weight validator [valid_hamming_weight], the
    constant-buffer test [is_buf_const], the endpoint-identifier deriver
    [get_endpoint_id] and the boot-time sequence [efuse_init].

    Conventions of the embedding.
    - The target is a 32-bit little-endian ARM core: [int] and [uint32_t]
      are 32 bits wide.  Machine integers are values in [Z]; every
      conversion to a machine type is written out ([uint8_t], [uint32_t],
      [int]), the signed one as two's-complement wrap-around, and the
      additions to the [int] counter of [count_ones] are the machine's
      wrapping additions.  The signed product [len * 8] of
      [valid_hamming_weight] has a value only when it is representable
      ([int_mul]): where it overflows, C leaves the behaviour undefined and
      the call has no result.
    - A pointer into a byte buffer or to an object is the list of bytes
      from the pointed address on; advancing the pointer drops bytes from
      the front, and a store through it replaces the leading bytes.  A read
      past the end of the modelled bytes yields zero bytes; the theorems
      state when the buffer covers the length that is passed.
    - A [while] loop is a [Fixpoint] on a fuel argument that tests the loop
      condition at each step.  The callers pass the byte count as fuel, and
      the loop lemmas ([count_ones_loop32_spec], [count_ones_loop8_spec],
      [is_buf_const_loop32_spec], [is_buf_const_loop8_spec]) show that the
      loops end on their exit condition and never on the fuel.
    - Global state (the last error, the cached VID and PID, the static
      [ims_value] buffer, the hash context) and the accesses to the chip
      are threaded through a state monad; every access to a collaborator
      is recorded in a trace.
    - The debug calls inside the e-Fuse routines ([dbgprint],
      [dbgprintx32], [dbgprintx64]) are not modelled there.  The hexadecimal
      printers of [common/src/debug.c] are embedded on their own, the
      console being the list of the [dbgputc] and [dbgprint] calls made. *)

From Stdlib Require Import ZArith List Lia Bool.
From coqutil Require Import Byte Word.LittleEndianList.
Import ListNotations.
Local Open Scope Z_scope.

(** ** Machine integers and memory *)

Module Ctypes.

(** Conversion to [uint8_t]. *)
Definition uint8_t (z : Z) : Z := z mod 2 ^ 8.

(** Conversion to [uint32_t]. *)
Definition uint32_t (z : Z) : Z := z mod 2 ^ 32.

(** Conversion to [int]: reduction modulo 2^32 into [-2^31, 2^31). *)
Definition int (z : Z) : Z := (z + 2 ^ 31) mod 2 ^ 32 - 2 ^ 31.

Definition INT_MAX : Z := 2 ^ 31 - 1.
Definition INT_MIN : Z := - 2 ^ 31.

(** The product of two [int]s.  Signed overflow is undefined in C: the
    product has a value only when it is representable. *)
Definition int_mul (a b : Z) : option Z :=
  let p := a * b in
  if (INT_MIN <=? p) && (p <=? INT_MAX) then Some p else None.

(** The value of a call whose evaluation is defined, for the callers that
    pass a constant length. *)
Definition defined (r : option bool) : bool :=
  match r with
  | Some b => b
  | None => false
  end.

(** Reading a [uint8_t] through a pointer. *)
Definition deref8 (buf : list byte) : Z := byte.unsigned (hd Byte.x00 buf).

(** Reading a [uint32_t] through a pointer (little-endian). *)
Definition deref32 (buf : list byte) : Z := le_combine (firstn 4 buf).

(** The four bytes of a [uint32_t] object, in memory order. *)
Definition bytes_of_uint32 (x : Z) : list byte := le_split 4 x.

(** [memcpy(dst, src, n)]: the destination after the copy. *)
Definition memcpy (dst src : list byte) (n : nat) : list byte :=
  firstn n src ++ skipn n dst.

End Ctypes.

Import Ctypes.

(** ** Masks used by [count_ones] *)

Definition MASK8_1S : Z := 0x55.
Definition MASK8_2S : Z := 0x33.
Definition MASK8_4S : Z := 0x0f.

Definition MASK32_1S : Z := 0x55555555.
Definition MASK32_2S : Z := 0x33333333.
Definition MASK32_4S : Z := 0x0f0f0f0f.
Definition MASK32_8S : Z := 0x00ff00ff.
Definition MASK32_16S : Z := 0x0000ffff.

(** ** [union large_uint] *)

Module large_uint.

(** The bytes from the address of the union on, the eight bytes of the
    object first, in memory order; [low] and [high] overlay the two halves
    of [quad].  A store replaces the bytes of its member and leaves the
    others. *)
Definition t : Type := list byte.

Definition low (u : t) : Z := le_combine (firstn 4 u).
Definition high (u : t) : Z := le_combine (firstn 4 (skipn 4 u)).
Definition quad (u : t) : Z := le_combine (firstn 8 u).

Definition set_quad (x : Z) (u : t) : t := le_split 8 x ++ skipn 8 u.
Definition set_low (x : Z) (u : t) : t := le_split 4 x ++ skipn 4 u.
Definition set_high (x : Z) (u : t) : t := firstn 4 u ++ le_split 4 x ++ skipn 8 u.

End large_uint.

(** IMS is 35 bytes long, but boot ROM only cares about the first 32 bytes. *)
Definition IMS_MEANINGFUL_LENGTH : Z := 32.

(** ** [count_ones] *)

(** The body of the first loop after [x32 = *buf32++]: the five folding
    steps on a 32-bit word, each stored back into the [uint32_t]. *)
Definition fold_word (x32 : Z) : Z :=
  let x32 := uint32_t (Z.land x32 MASK32_1S + Z.land (Z.shiftr x32 1) MASK32_1S) in
  let x32 := uint32_t (Z.land x32 MASK32_2S + Z.land (Z.shiftr x32 2) MASK32_2S) in
  let x32 := uint32_t (Z.land x32 MASK32_4S + Z.land (Z.shiftr x32 4) MASK32_4S) in
  let x32 := uint32_t (Z.land x32 MASK32_8S + Z.land (Z.shiftr x32 8) MASK32_8S) in
  Z.land (uint32_t (x32 + Z.shiftr x32 16)) MASK32_16S.

(** The body of the second loop after [x = *buf++]: the three folding steps
    on a byte, each stored back into the [uint8_t]. *)
Definition fold_byte (x : Z) : Z :=
  let x := uint8_t (x - Z.land (Z.shiftr x 1) MASK8_1S) in
  let x := uint8_t (Z.land x MASK8_2S + Z.land (Z.shiftr x 2) MASK8_2S) in
  uint8_t (Z.land (x + Z.shiftr x 4) MASK8_4S).

(** [while (len >= 4) { x32 = *buf32++; ...; count += x32; len -= 4; }]
    The sum [count + x32] is taken in [uint32_t] and stored into the [int]
    counter.  The result is the pointer, the length and the counter at the
    exit of the loop. *)
Fixpoint count_ones_loop32 (fuel : nat) (buf32 : list byte) (len count : Z)
  : list byte * Z * Z :=
  match fuel with
  | O => (buf32, len, count)
  | S fuel' =>
      if 4 <=? len then
        let x32 := fold_word (deref32 buf32) in
        count_ones_loop32 fuel' (skipn 4 buf32) (int (len - 4))
          (int (uint32_t (uint32_t count + x32)))
      else (buf32, len, count)
  end.

(** [while (len > 0) { x = *buf++; ...; count += x; len--; }] *)
Fixpoint count_ones_loop8 (fuel : nat) (buf : list byte) (len count : Z)
  : list byte * Z * Z :=
  match fuel with
  | O => (buf, len, count)
  | S fuel' =>
      if 0 <? len then
        let x := fold_byte (deref8 buf) in
        count_ones_loop8 fuel' (skipn 1 buf) (int (len - 1)) (int (count + x))
      else (buf, len, count)
  end.

Definition count_ones (buf : list byte) (len : Z) : Z :=
  let '(buf32, len, count) := count_ones_loop32 (Z.to_nat len) buf len 0 in
  let '(_, _, count) := count_ones_loop8 (Z.to_nat len) buf32 len count in
  count.

(** ** [valid_hamming_weight] *)

(** [count == 0 || count == len * 8 / 2]: the right operand of [||] is
    evaluated only when the left one is false; the product is an [int]
    product, and the division of C truncates toward zero.  The call has no
    result, [None], when the product overflows. *)
Definition valid_hamming_weight (buf : list byte) (len : Z) : option bool :=
  let count := count_ones buf len in
  if count =? 0 then Some true
  else
    match int_mul len 8 with
    | Some bits => Some (count =? Z.quot bits 2)
    | None => None
    end.

(** ** [is_buf_const] *)

(** [val32 = val; val32 |= (val32 << 8); val32 |= (val32 << 16);] *)
Definition val32_of (val : Z) : Z :=
  let val32 := uint32_t val in
  let val32 := Z.lor val32 (uint32_t (Z.shiftl val32 8)) in
  Z.lor val32 (uint32_t (Z.shiftl val32 16)).

(** [while (size > sizeof(uint32_t)) { if ( *(uint32_t * )buf != val32)
    return false; buf += 4; size -= 4; }]   [None] is the [return false]. *)
Fixpoint is_buf_const_loop32 (fuel : nat) (buf : list byte) (size val32 : Z)
  : option (list byte * Z) :=
  match fuel with
  | O => Some (buf, size)
  | S fuel' =>
      if 4 <? size then
        if negb (deref32 buf =? val32) then None
        else is_buf_const_loop32 fuel' (skipn 4 buf) (uint32_t (size - 4)) val32
      else Some (buf, size)
  end.

(** [while (size > 0) { if ( *buf++ != val) return false; size--; }] *)
Fixpoint is_buf_const_loop8 (fuel : nat) (buf : list byte) (size val : Z)
  : option (list byte * Z) :=
  match fuel with
  | O => Some (buf, size)
  | S fuel' =>
      if 0 <? size then
        if negb (deref8 buf =? val) then None
        else is_buf_const_loop8 fuel' (skipn 1 buf) (uint32_t (size - 1)) val
      else Some (buf, size)
  end.

Definition is_buf_const (buf : list byte) (size : Z) (val : byte) : bool :=
  let v := byte.unsigned val in
  match is_buf_const_loop32 (Z.to_nat size) buf size (val32_of v) with
  | None => false
  | Some (buf, size) =>
      match is_buf_const_loop8 (Z.to_nat size) buf size v with
      | None => false
      | Some _ => true
      end
  end.

(** ** Collaborators: error slot, chip registers, hash primitive *)

(** Modelled from the spec: the error codes of [error.h], which is not among
    the sources.  The specification lists them as mutually exclusive codes,
    with OK the value of the error slot before any failure. *)
Inductive bootrom_error : Type :=
| BRE_OK
| BRE_EFUSE_ECC
| BRE_EFUSE_BAD_ARA_VID
| BRE_EFUSE_BAD_ARA_PID
| BRE_EFUSE_BAD_IMS
| BRE_EFUSE_ENDPOINT_ID_WRITE.

Definition bootrom_error_eqb (a b : bootrom_error) : bool :=
  match a, b with
  | BRE_OK, BRE_OK
  | BRE_EFUSE_ECC, BRE_EFUSE_ECC
  | BRE_EFUSE_BAD_ARA_VID, BRE_EFUSE_BAD_ARA_VID
  | BRE_EFUSE_BAD_ARA_PID, BRE_EFUSE_BAD_ARA_PID
  | BRE_EFUSE_BAD_IMS, BRE_EFUSE_BAD_IMS
  | BRE_EFUSE_ENDPOINT_ID_WRITE, BRE_EFUSE_ENDPOINT_ID_WRITE => true
  | _, _ => false
  end.

(** The two DME attributes [efuse_init] writes. *)
Inductive dme_attribute : Type :=
| DME_DDBL2_ENDPOINTID_L
| DME_DDBL2_ENDPOINTID_H.

(** What the chip answers during one boot: the ECC status register, the VID
    and PID fuses, the IMS fuse bytes, and the result code of an attribute
    write. *)
Record chip : Type := {
  eccerror : Z;
  vid : Z;
  pid : Z;
  ims : list byte;
  attr_write_result : dme_attribute -> Z -> Z
}.

(** The accesses to the collaborators, in program order. *)
Inductive event : Type :=
| EvGetEccError
| EvGetVid
| EvGetPid
| EvGetIms (len : Z)
| EvAttrWrite (attr : dme_attribute) (val : Z)
| EvHashStart
| EvHashUpdate (data : list byte)
| EvHashFinal
| EvDisableImsAccess
| EvDisableCmsAccess.

(** The global state the routine touches: the last-error slot, the cached
    [ara_vid] and [ara_pid], the static [ims_value] buffer, the context of
    the hash primitive, and the trace of accesses. *)
Record state : Type := {
  last_error : bootrom_error;
  ara_vid : Z;
  ara_pid : Z;
  ims_value : list byte;
  hash_ctx : list byte;
  trace : list event
}.

Definition M (A : Type) : Type := state -> A * state.

Definition ret {A} (a : A) : M A := fun s => (a, s).

Definition bind {A B} (m : M A) (k : A -> M B) : M B :=
  fun s => let (a, s') := m s in k a s'.

Declare Scope efuse_scope.
Delimit Scope efuse_scope with efuse.
Notation "x <- m ;; k" := (bind m (fun x => k))
  (at level 61, m at next level, right associativity) : efuse_scope.
Notation "m ;; k" := (bind m (fun _ => k))
  (at level 61, right associativity) : efuse_scope.

Definition log (e : event) (s : state) : state :=
  {| last_error := last_error s; ara_vid := ara_vid s; ara_pid := ara_pid s;
     ims_value := ims_value s; hash_ctx := hash_ctx s;
     trace := trace s ++ [e] |}.

Definition set_hash_ctx (ctx : list byte) (s : state) : state :=
  {| last_error := last_error s; ara_vid := ara_vid s; ara_pid := ara_pid s;
     ims_value := ims_value s; hash_ctx := ctx; trace := trace s |}.

(** Modelled from the spec: [set_last_error(code)] of the diagnostics
    collaborator ([error.c] is not among the sources); it records the code
    in the last-error slot. *)
Definition set_last_error (e : bootrom_error) : M unit := fun s =>
  (tt, {| last_error := e; ara_vid := ara_vid s; ara_pid := ara_pid s;
          ims_value := ims_value s; hash_ctx := hash_ctx s; trace := trace s |}).

(** Modelled from the spec: [get_last_error() -> code]. *)
Definition get_last_error : M bootrom_error := fun s => (last_error s, s).

(** The stores to the globals [ara_vid] and [ara_pid]. *)
Definition set_ara_vid (v : Z) : M unit := fun s =>
  (tt, {| last_error := last_error s; ara_vid := v; ara_pid := ara_pid s;
          ims_value := ims_value s; hash_ctx := hash_ctx s; trace := trace s |}).

Definition set_ara_pid (v : Z) : M unit := fun s =>
  (tt, {| last_error := last_error s; ara_vid := ara_vid s; ara_pid := v;
          ims_value := ims_value s; hash_ctx := hash_ctx s; trace := trace s |}).

(** Modelled from the spec: the digest size of the hash primitive
    ([crypto.h] is not among the sources); the source names SHA-256. *)
Definition HASH_DIGEST_SIZE : Z := 32.

Section Efuse.

(** The chip of this boot. *)
Variable hw : chip.

(** The digest function of the hash primitive. *)
Variable Hash : list byte -> list byte.

(** The error bit of the ECC status register ([tsb_scm.h] is not among the
    sources): a parameter. *)
Variable TSB_ECCERROR_ECC_ERROR : Z.

(** Whether the build defines [_SIMULATION]. *)
Variable simulation : bool.

(** The bytes of the automatic object [endpoint_id] of [efuse_init] at its
    declaration: the source does not initialise it. *)
Variable indeterminate : large_uint.t.

(** Modelled from the spec: [read_ecc_status()] of the peripheral-access
    collaborator; it returns the 32-bit status register. *)
Definition tsb_get_eccerror : M Z := fun s =>
  (uint32_t (eccerror hw), log EvGetEccError s).

(** Modelled from the spec: [read_identity_field(name)], for the vendor ID. *)
Definition tsb_get_vid : M Z := fun s => (uint32_t (vid hw), log EvGetVid s).

(** Modelled from the spec: [read_identity_field(name)], for the product ID. *)
Definition tsb_get_pid : M Z := fun s => (uint32_t (pid hw), log EvGetPid s).

(** Modelled from the spec: [read_secret_field(buffer, max_len)]; it copies
    the first [len] bytes of the IMS fuse into the static [ims_value]. *)
Definition tsb_get_ims (len : Z) : M unit := fun s =>
  (tt, log (EvGetIms len)
         {| last_error := last_error s; ara_vid := ara_vid s; ara_pid := ara_pid s;
            ims_value := memcpy (ims_value s) (ims hw) (Z.to_nat len);
            hash_ctx := hash_ctx s; trace := trace s |}).

(** Modelled from the spec: [write_attribute(id, value, peer_flag, scope)];
    both calls of the source pass selector 0 and [ATTR_LOCAL].  The result
    code is the chip's. *)
Definition chip_unipro_attr_write (attr : dme_attribute) (val : Z) : M Z := fun s =>
  (attr_write_result hw attr val, log (EvAttrWrite attr val) s).

(** Modelled from the spec: [start()] of the hash primitive, a fresh hash
    context. *)
Definition hash_start : M unit := fun s =>
  (tt, log EvHashStart (set_hash_ctx [] s)).

(** Modelled from the spec: [update(bytes)] of the hash primitive; it feeds
    the context [datalen] bytes from [data], and the digest depends only on
    the bytes fed, whatever the chunking.  The length counts bytes: the
    source feeds the [HASH_DIGEST_SIZE]-byte arrays [Y1] and [Z0] with
    length [HASH_DIGEST_SIZE]. *)
Definition hash_update (data : list byte) (datalen : Z) : M unit := fun s =>
  let fed := firstn (Z.to_nat datalen) data in
  (tt, log (EvHashUpdate fed) (set_hash_ctx (hash_ctx s ++ fed) s)).

(** Modelled from the spec: [finalize() -> fixed-size digest]: the digest of
    the bytes fed since the last start. *)
Definition hash_final : M (list byte) := fun s =>
  (Hash (hash_ctx s), log EvHashFinal s).

Local Open Scope efuse_scope.

(** [for (i = 0; i < n; i++) body], entered with the current [i]. *)
Fixpoint for_loop (n : nat) (i : Z) (body : Z -> M unit) : M unit :=
  match n with
  | O => ret tt
  | S n' => body i ;; for_loop n' (i + 1) body
  end.

(** The [#else] branch of [get_endpoint_id] (lines 327-360): the three hash
    sessions and the final [memcpy(endpoint_id, EP_UID, 8)].  [pims[i]] is
    the word at byte offset [4 * i] of [ims_value]; [(unsigned char * )&temp]
    are the bytes of [temp] in memory order. *)
Definition compute_endpoint_uid (endpoint_id : large_uint.t) : M large_uint.t :=
  hash_start ;;
  for_loop 4 0 (fun i => fun s =>
    let pims_i := deref32 (skipn (Z.to_nat (4 * i)) (ims_value s)) in
    let temp := Z.lxor pims_i 0x3d3d3d3d in
    hash_update (bytes_of_uint32 temp) 1 s) ;;
  Y1 <- hash_final ;;
  hash_start ;;
  hash_update Y1 HASH_DIGEST_SIZE ;;
  (let temp := 0x01010101 in
   for_loop 8 0 (fun _ => hash_update (bytes_of_uint32 temp) 1)) ;;
  Z0 <- hash_final ;;
  hash_start ;;
  hash_update Z0 HASH_DIGEST_SIZE ;;
  EP_UID <- hash_final ;;
  ret (memcpy endpoint_id EP_UID 8).

(** [get_endpoint_id]: the argument is the object [endpoint_id] points to,
    as the caller left it; the result is the returned flag and that object
    after the call.  [IMS_MEANINGFUL_LENGTH * 8] is in the range of [int],
    so the call of [valid_hamming_weight] has a result
    ([valid_hamming_weight_defined]). *)
Definition get_endpoint_id (endpoint_id : large_uint.t) : M (bool * large_uint.t) :=
  let have_endpoint_id := false in
  let endpoint_id := large_uint.set_quad 0 endpoint_id in
  tsb_get_ims IMS_MEANINGFUL_LENGTH ;;
  fun s =>
  if negb (is_buf_const (ims_value s) IMS_MEANINGFUL_LENGTH Byte.x00) then
    if negb (defined (valid_hamming_weight (ims_value s) IMS_MEANINGFUL_LENGTH)) then
      (set_last_error BRE_EFUSE_BAD_IMS ;;
       ret (have_endpoint_id, endpoint_id)) s
    else
      (endpoint_id <-
         (if simulation then
            ret (large_uint.set_high 0x9ABCDEF0
                   (large_uint.set_low 0x12345678 endpoint_id))
          else compute_endpoint_uid endpoint_id) ;;
       ret (true, endpoint_id)) s
  else ret (have_endpoint_id, endpoint_id) s.

(** [efuse_init]: the result is the return code, 0 or -1.  [ara_vid] and
    [ara_pid] are 32-bit objects, so [sizeof] is 4, and [4 * 8] is in the
    range of [int].  [get_endpoint_id] receives the address of the local
    [endpoint_id], which holds [indeterminate] bytes. *)
Definition efuse_init : M Z :=
  register_val <- tsb_get_eccerror ;;
  if negb (Z.land register_val TSB_ECCERROR_ECC_ERROR =? 0) then
    set_last_error BRE_EFUSE_ECC ;; ret (-1)
  else
    v <- tsb_get_vid ;;
    set_ara_vid v ;;
    if negb (defined (valid_hamming_weight (bytes_of_uint32 v) 4)) then
      set_last_error BRE_EFUSE_BAD_ARA_VID ;; ret (-1)
    else
      p <- tsb_get_pid ;;
      set_ara_pid p ;;
      if negb (defined (valid_hamming_weight (bytes_of_uint32 p) 4)) then
        set_last_error BRE_EFUSE_BAD_ARA_PID ;; ret (-1)
      else
        r <- get_endpoint_id indeterminate ;;
        let '(have_endpoint_id, endpoint_id) := r in
        if negb have_endpoint_id then
          e <- get_last_error ;;
          if negb (bootrom_error_eqb e BRE_OK) then ret (-1) else ret 0
        else
          urc <- chip_unipro_attr_write DME_DDBL2_ENDPOINTID_L
                   (large_uint.low endpoint_id) ;;
          if negb (urc =? 0) then
            set_last_error BRE_EFUSE_ENDPOINT_ID_WRITE ;; ret (-1)
          else
            urc <- chip_unipro_attr_write DME_DDBL2_ENDPOINTID_H
                     (large_uint.high endpoint_id) ;;
            if negb (urc =? 0) then
              set_last_error BRE_EFUSE_ENDPOINT_ID_WRITE ;; ret (-1)
            else ret 0.

(** [efuse_rig_for_untrusted]: [tsb_disable_ims_access(); tsb_disable_cms_access();] *)
Definition efuse_rig_for_untrusted : M unit := fun s =>
  (tt, log EvDisableCmsAccess (log EvDisableImsAccess s)).

End Efuse.

(** ** Notions the statements use *)

(** The number of set bits of a byte, bit by bit. *)
Definition ones_in_byte (b : byte) : Z :=
  fold_right (fun i acc => Z.b2z (Z.testbit (byte.unsigned b) i) + acc) 0
    [0; 1; 2; 3; 4; 5; 6; 7].

(** The number of set bits of a buffer, byte by byte. *)
Definition ones_in (buf : list byte) : Z :=
  fold_right (fun b acc => ones_in_byte b + acc) 0 buf.

(** Every byte of the buffer equals [val]. *)
Definition all_bytes (val : byte) (buf : list byte) : bool :=
  forallb (Byte.eqb val) buf.

(** A fuse field is unset (no bit set) or validly set (half of its bits
    set). *)
Definition hamming_valid (field : list byte) : Prop :=
  ones_in field = 0 \/ ones_in field = 4 * Z.of_nat (length field).

(** The ECC status register has its error bit clear. *)
Definition ecc_ok (hw : chip) (TSB_ECCERROR_ECC_ERROR : Z) : Prop :=
  Z.land (uint32_t (eccerror hw)) TSB_ECCERROR_ECC_ERROR = 0.

(** The vendor and product ID as [efuse_init] hands them to
    [valid_hamming_weight]. *)
Definition vid_field (hw : chip) : list byte := bytes_of_uint32 (uint32_t (vid hw)).
Definition pid_field (hw : chip) : list byte := bytes_of_uint32 (uint32_t (pid hw)).

(** The 32 meaningful bytes of the secret. *)
Definition secret (hw : chip) : list byte := firstn 32 (ims hw).

(** The state in which [efuse_init] calls [get_endpoint_id]. *)
Definition before_secret (hw : chip) (st : state) : state :=
  {| last_error := last_error st;
     ara_vid := uint32_t (vid hw); ara_pid := uint32_t (pid hw);
     ims_value := ims_value st; hash_ctx := hash_ctx st;
     trace := trace st ++ [EvGetEccError; EvGetVid; EvGetPid] |}.

(** One folding step of [count_ones]: the fields selected by mask [M] plus
    the fields [k] bits above them. *)
Definition fold_step (k M x : Z) : Z := Z.land x M + Z.land (Z.shiftr x k) M.

(** Four values below 2^8 packed into a word, lowest first. *)
Definition pack4 (a0 a1 a2 a3 : Z) : Z :=
  a0 + 2 ^ 8 * (a1 + 2 ^ 8 * (a2 + 2 ^ 8 * (a3 + 2 ^ 8 * 0))).

Definition in_byte_range (z : Z) : bool := (0 <=? z) && (z <? 2 ^ 8).

(** The bytes the first hash session of [compute_endpoint_uid] receives, as
    a function of the [ims_value] buffer. *)
Definition session1_input (buf : list byte) : list byte :=
  flat_map
    (fun i => firstn 1 (bytes_of_uint32
                          (Z.lxor (deref32 (skipn (4 * i) buf)) 0x3d3d3d3d)))
    [0; 1; 2; 3]%nat.

(** The endpoint identifier [compute_endpoint_uid] stores into the zeroed
    object of the caller, as a function of the [ims_value] buffer. *)
Definition derived_endpoint_id (Hash : list byte -> list byte)
  (endpoint_id : large_uint.t) (buf : list byte) : large_uint.t :=
  let Y1 := Hash (session1_input buf) in
  let Z0 := Hash (firstn 32 Y1 ++ repeat Byte.x01 8) in
  let EP_UID := Hash (firstn 32 Z0) in
  memcpy (large_uint.set_quad 0 endpoint_id) EP_UID 8.

(** The chain in the words of the specification: Y1 is the hash of the first
    16 secret bytes XORed with 16 bytes 0x3D, Z0 the hash of Y1 followed by
    32 bytes 0x01, EP_UID the hash of Z0, and the result its first 8 bytes. *)
Definition spec_endpoint_id (Hash : list byte -> list byte) (key : list byte)
  : list byte :=
  let Y1 := Hash (map (fun b => byte.xor b Byte.x3d) (firstn 16 key)) in
  let Z0 := Hash (Y1 ++ repeat Byte.x01 32) in
  let EP_UID := Hash Z0 in
  firstn 8 EP_UID.


(** ** Concrete chips and states for the closed examples *)

(** A stand-in for the digest function in closed examples (it is not
    SHA-256): the length of the message, then its first 31 bytes, zero
    padded. *)
Definition stand_in_digest (m : list byte) : list byte :=
  byte.of_Z (Z.of_nat (length m)) :: firstn 31 (m ++ repeat Byte.x00 31).

(** Stale bytes in the object a caller hands to [get_endpoint_id]. *)
Definition stale_endpoint_id : large_uint.t := repeat Byte.xa5 8.

(** The state at the call of [efuse_init]: no error recorded, the static
    buffer zeroed. *)
Definition boot_state : state :=
  {| last_error := BRE_OK; ara_vid := 0; ara_pid := 0;
     ims_value := repeat Byte.x00 35; hash_ctx := []; trace := [] |}.

(** A secret of Hamming weight 128 whose first sixteen bytes are pairwise
    distinguishable. *)
Definition balanced_secret : list byte :=
  [Byte.x0f; Byte.xf0; Byte.x33; Byte.xcc; Byte.x55; Byte.xaa; Byte.x66; Byte.x99;
   Byte.x3c; Byte.xc3; Byte.x5a; Byte.xa5; Byte.x69; Byte.x96; Byte.x0f; Byte.xf0]
  ++ repeat Byte.x0f 16.


Definition chip_with (e v p : Z) (key : list byte) : chip :=
  {| eccerror := e; vid := v; pid := p;
     ims := key ++ repeat Byte.x00 3;
     attr_write_result := fun _ _ => 0 |}.

(** The ECC error bit set. *)
Definition chip_ecc_error : chip := chip_with 1 0x0000ffff 0x00ff00ff balanced_secret.

(** A vendor ID with 3 set bits out of 32. *)
Definition chip_bad_vid : chip := chip_with 0 0x00000007 0x00ff00ff balanced_secret.

(** A valid vendor ID and a product ID with one set bit. *)
Definition chip_bad_pid : chip := chip_with 0 0x0000ffff 0x00000001 balanced_secret.

(** No secret provisioned. *)
Definition chip_no_secret : chip := chip_with 0 0x0000ffff 0x00ff00ff (repeat Byte.x00 32).

(** A secret with every byte 0x01. *)
Definition chip_bad_secret : chip := chip_with 0 0x0000ffff 0x00ff00ff (repeat Byte.x01 32).

(** Valid identity fields and a secret of weight 128. *)
Definition chip_provisioned : chip := chip_with 0 0x0000ffff 0x00ff00ff balanced_secret.


(** A quarter of a gibibyte: the least length whose bit count exceeds
    [INT_MAX]. *)
Definition QUARTER_GIB : Z := 268435456.

(** ** [common/src/debug.c]: the hex-dump utilities *)

(** The calls to the console primitives, in program order.  [dbgputc] and
    [dbgprint] are declared in [debug.h], which is not among the sources: a
    call is recorded with its argument (the character code, or the
    characters of the string literal), whatever the console does with it. *)
Inductive dbg_event : Type :=
| DbgPutc (c : Z)
| DbgPrint (s : list Z).

Definition dbgputc (c : Z) (out : list dbg_event) : list dbg_event :=
  out ++ [DbgPutc c].

Definition dbgprint (s : list Z) (out : list dbg_event) : list dbg_event :=
  out ++ [DbgPrint s].

(** [dbgputc(flag ? 'T' : 'F')] *)
Definition dbgprintbool (flag : Z) (out : list dbg_event) : list dbg_event :=
  dbgputc (if negb (uint8_t flag =? 0) then 84 else 70) out.

(** [for (i = start; i >= 0; i--) body]: the loop entered with the current
    [i]. *)
Fixpoint for_down {A : Type} (fuel : nat) (i : Z) (body : Z -> A -> A) (s : A) : A :=
  match fuel with
  | O => s
  | S fuel' =>
      if 0 <=? i then for_down fuel' (int (i - 1)) body (body i s) else s
  end.

(** [dbgprinthex8]: the argument arrives as a [uint8_t]. *)
Definition dbgprinthex8 (num : Z) (out : list dbg_event) : list dbg_event :=
  let num := uint8_t num in
  for_down 3 1
    (fun digit out =>
       let nybble := Z.land (Z.shiftr num (Z.shiftl digit 2)) 0x0f in
       if nybble <? 10 then dbgputc (48 + nybble) out
       else dbgputc (97 + (nybble - 10)) out)
    out.

(** [dbgprinthex32]: the argument arrives as a [uint32_t]. *)
Definition dbgprinthex32 (num : Z) (out : list dbg_event) : list dbg_event :=
  let num := uint32_t num in
  for_down 5 3
    (fun byte out =>
       let byte_value := uint8_t (Z.land (Z.shiftr num (Z.shiftl byte 3)) 0x0ff) in
       dbgprinthex8 byte_value out)
    out.

(** [dbgprinthex64]: the argument arrives as a [uint64_t]. *)
Definition dbgprinthex64 (num : Z) (out : list dbg_event) : list dbg_event :=
  let num := num mod 2 ^ 64 in
  for_down 9 7
    (fun byte out =>
       let byte_value := uint8_t (Z.land (Z.shiftr num (Z.shiftl byte 3)) 0x0ff) in
       dbgprinthex8 byte_value out)
    out.

(** [while (len > 0) { dbgprinthex8( *buf++); count_on_line--;
    if (count_on_line == 0) { dbgprint("\r\n"); count_on_line = 16; }
    else { dbgputc(' '); } len--; }] *)
Fixpoint dbgprinthexbuf_loop (fuel : nat) (buf : list byte) (len count_on_line : Z)
  (out : list dbg_event) : list dbg_event :=
  match fuel with
  | O => out
  | S fuel' =>
      if 0 <? len then
        let out := dbgprinthex8 (deref8 buf) out in
        let count_on_line := int (count_on_line - 1) in
        if count_on_line =? 0 then
          dbgprinthexbuf_loop fuel' (skipn 1 buf) (int (len - 1)) 16
            (dbgprint [13; 10] out)
        else
          dbgprinthexbuf_loop fuel' (skipn 1 buf) (int (len - 1)) count_on_line
            (dbgputc 32 out)
      else out
  end.

Definition dbgprinthexbuf (buf : list byte) (len : Z) (out : list dbg_event)
  : list dbg_event :=
  dbgprinthexbuf_loop (Z.to_nat len) buf len 16 out.

(** ** Further notions the statements use *)

(** The value of a lower-case hexadecimal digit, by its character code. *)
Definition hex_value (c : Z) : option Z :=
  if (48 <=? c) && (c <=? 57) then Some (c - 48)
  else if (97 <=? c) && (c <=? 102) then Some (c - 87)
  else None.

(** Reading console output back as a hexadecimal number, most significant
    digit first, continuing from [acc]; anything but a hex digit fails. *)
Fixpoint parse_hex_from (acc : Z) (out : list dbg_event) : option Z :=
  match out with
  | [] => Some acc
  | DbgPutc c :: rest =>
      match hex_value c with
      | Some v => parse_hex_from (acc * 16 + v) rest
      | None => None
      end
  | DbgPrint _ :: _ => None
  end.

Definition parse_hex (out : list dbg_event) : option Z := parse_hex_from 0 out.

(** A hex dump by position: the byte at index [i] as two digits, followed by
    a line break when [i + 1] is a multiple of 16 and by a space otherwise. *)
Fixpoint hexdump (i : nat) (buf : list byte) : list dbg_event :=
  match buf with
  | [] => []
  | b :: rest =>
      dbgprinthex8 (byte.unsigned b) []
      ++ [if (Z.of_nat (S i) mod 16 =? 0) then DbgPrint [13; 10] else DbgPutc 32]
      ++ hexdump (S i) rest
  end.

Definition is_line_break (e : dbg_event) : bool :=
  match e with
  | DbgPrint _ => true
  | DbgPutc _ => false
  end.

(** The number of set bits among the low [width] bits of a value. *)
Definition set_bits (width : nat) (x : Z) : Z :=
  fold_right (fun i acc => Z.b2z (Z.testbit x (Z.of_nat i)) + acc) 0 (seq 0 width).

(** The events [efuse_init] adds to the trace of [st]. *)
Definition new_events (st st' : state) : list event :=
  skipn (length (trace st)) (trace st').

Definition is_attr_write (e : event) : bool :=
  match e with
  | EvAttrWrite _ _ => true
  | _ => false
  end.

Definition is_hash_call (e : event) : bool :=
  match e with
  | EvHashStart | EvHashUpdate _ | EvHashFinal => true
  | _ => false
  end.

(** A provisioned chip whose attribute writes fail: the first one, or the
    second one only. *)
Definition chip_write_fails (first : bool) : chip :=
  {| eccerror := 0; vid := 0x0000ffff; pid := 0x00ff00ff;
     ims := balanced_secret ++ repeat Byte.x00 3;
     attr_write_result := fun attr _ =>
       match attr with
       | DME_DDBL2_ENDPOINTID_L => if first then 1 else 0
       | DME_DDBL2_ENDPOINTID_H => 1
       end |}.

(** * Proofs *)

(** ** The embedding on concrete inputs *)

(** Five bytes: one word and one trailing byte. *)
Example count_ones_five_bytes :
  count_ones [Byte.xff; Byte.x01; Byte.x03; Byte.x80; Byte.x07] 5 = 15.
Proof. reflexivity. Qed.

(** The same buffer cut after three bytes: the byte loop only. *)
Example count_ones_three_bytes :
  count_ones [Byte.xff; Byte.x01; Byte.x03; Byte.x80; Byte.x07] 3 = 11.
Proof. reflexivity. Qed.

Example valid_hamming_weight_half :
  valid_hamming_weight [Byte.xff; Byte.xff; Byte.x00; Byte.x00] 4 = Some true.
Proof. reflexivity. Qed.

Example valid_hamming_weight_three_bits :
  valid_hamming_weight (bytes_of_uint32 0x00000007) 4 = Some false.
Proof. reflexivity. Qed.

(** Eight bytes: the word loop stops with four bytes left, which the byte
    loop checks. *)
Example is_buf_const_last_byte_differs :
  is_buf_const (repeat Byte.xff 7 ++ [Byte.xfe]) 8 Byte.xff = false /\
  is_buf_const (repeat Byte.xff 7 ++ [Byte.xfe]) 7 Byte.xff = true.
Proof. split; reflexivity. Qed.

(** A provisioned chip: [efuse_init] succeeds, runs the three hash sessions
    and writes the two halves of the identifier. *)
Example efuse_init_provisioned :
  fst (efuse_init chip_provisioned stand_in_digest 1 false stale_endpoint_id boot_state) = 0 /\
  last_error (snd (efuse_init chip_provisioned stand_in_digest 1 false stale_endpoint_id boot_state))
  = BRE_OK /\
  trace (snd (efuse_init chip_provisioned stand_in_digest 1 false stale_endpoint_id boot_state)) =
  [EvGetEccError; EvGetVid; EvGetPid; EvGetIms 32;
   EvHashStart;
   EvHashUpdate [Byte.x32]; EvHashUpdate [Byte.x68];
   EvHashUpdate [Byte.x01]; EvHashUpdate [Byte.x54];
   EvHashFinal;
   EvHashStart;
   EvHashUpdate (stand_in_digest [Byte.x32; Byte.x68; Byte.x01; Byte.x54]);
   EvHashUpdate [Byte.x01]; EvHashUpdate [Byte.x01];
   EvHashUpdate [Byte.x01]; EvHashUpdate [Byte.x01];
   EvHashUpdate [Byte.x01]; EvHashUpdate [Byte.x01];
   EvHashUpdate [Byte.x01]; EvHashUpdate [Byte.x01];
   EvHashFinal;
   EvHashStart;
   EvHashUpdate
     (stand_in_digest
        (stand_in_digest [Byte.x32; Byte.x68; Byte.x01; Byte.x54]
         ++ repeat Byte.x01 8));
   EvHashFinal;
   EvAttrWrite DME_DDBL2_ENDPOINTID_L 0x32042820;
   EvAttrWrite DME_DDBL2_ENDPOINTID_H 0x00540168].
Proof. vm_compute. repeat split; reflexivity. Qed.

(** ** Bits of concatenated fields *)

(** [a + 2^n * y] has [a] in its low [n] bits and [y] above them. *)
Lemma testbit_cat (n a y i : Z) :
  0 <= n -> 0 <= a < 2 ^ n -> 0 <= i ->
  Z.testbit (a + 2 ^ n * y) i =
  if i <? n then Z.testbit a i else Z.testbit y (i - n).
Proof.
  intros Hn Ha Hi.
  assert (Hp : 0 < 2 ^ n) by (apply Z.pow_pos_nonneg; lia).
  destruct (Z.ltb_spec i n) as [Hlt | Hge].
  - rewrite <- (Z.mod_pow2_bits_low (a + 2 ^ n * y) n i) by lia.
    rewrite Z.mul_comm, Z.mod_add by lia.
    rewrite Z.mod_small by lia. reflexivity.
  - replace i with ((i - n) + n) at 1 by lia.
    rewrite <- Z.div_pow2_bits by lia.
    rewrite Z.mul_comm, Z.div_add by lia.
    rewrite Z.div_small by lia. reflexivity.
Qed.

Lemma testbit_small (n m i : Z) :
  0 <= m < 2 ^ n -> n <= i -> Z.testbit m i = false.
Proof.
  intros Hm Hi.
  destruct (Z.eq_dec m 0) as [-> | Hne]; [apply Z.bits_0 |].
  apply Z.bits_above_log2; [lia |].
  apply Z.log2_lt_pow2; [lia |].
  assert (2 ^ n <= 2 ^ i) by (apply Z.pow_le_mono_r; lia). lia.
Qed.

Lemma land_range (n a m : Z) :
  0 <= n -> 0 <= a < 2 ^ n -> 0 <= m -> 0 <= Z.land a m < 2 ^ n.
Proof.
  intros Hn Ha Hm.
  assert (Hp : 0 < 2 ^ n) by (apply Z.pow_pos_nonneg; lia).
  assert (H0 : 0 <= Z.land a m) by (apply Z.land_nonneg; lia).
  split; [exact H0 |].
  replace (Z.land a m) with (Z.land a m mod 2 ^ n).
  - apply Z.mod_pos_bound; lia.
  - rewrite <- Z.land_ones by lia.
    rewrite <- Z.land_assoc, (Z.land_comm m), Z.land_assoc.
    rewrite (Z.land_ones a) by lia. rewrite Z.mod_small by lia. reflexivity.
Qed.

(** A mask acts on the low field and on the rest independently. *)
Lemma land_cat (n a y m M : Z) :
  0 <= n -> 0 <= a < 2 ^ n -> 0 <= m < 2 ^ n ->
  Z.land (a + 2 ^ n * y) (m + 2 ^ n * M) = Z.land a m + 2 ^ n * Z.land y M.
Proof.
  intros Hn Ha Hm.
  pose proof (land_range n a m Hn Ha ltac:(lia)) as Hr.
  apply Z.bits_inj'; intros i Hi.
  rewrite Z.land_spec, !testbit_cat by assumption.
  destruct (i <? n); symmetry; apply Z.land_spec.
Qed.

(** So does a mask after a right shift by [k], when the mask is clear in the
    top [k] bits of the low field: the bits shifted in from above are masked
    away. *)
Lemma land_shiftr_cat (n k a y m M : Z) :
  0 <= k <= n -> 0 <= a < 2 ^ n -> 0 <= m < 2 ^ (n - k) ->
  Z.land (Z.shiftr (a + 2 ^ n * y) k) (m + 2 ^ n * M) =
  Z.land (Z.shiftr a k) m + 2 ^ n * Z.land (Z.shiftr y k) M.
Proof.
  intros Hk Ha Hm.
  assert (Hmn : 0 <= m < 2 ^ n).
  { assert (2 ^ (n - k) <= 2 ^ n) by (apply Z.pow_le_mono_r; lia). lia. }
  assert (Hs : 0 <= Z.shiftr a k < 2 ^ n).
  { rewrite Z.shiftr_div_pow2 by lia.
    assert (0 < 2 ^ k) by (apply Z.pow_pos_nonneg; lia).
    split; [apply Z.div_pos; lia |].
    apply Z.le_lt_trans with a; [apply Z.div_le_upper_bound; nia | lia]. }
  pose proof (land_range n (Z.shiftr a k) m ltac:(lia) Hs ltac:(lia)) as Hr.
  apply Z.bits_inj'; intros i Hi.
  rewrite Z.land_spec, Z.shiftr_spec by assumption.
  rewrite !testbit_cat by lia.
  destruct (Z.ltb_spec i n) as [Hin | Hin].
  - rewrite Z.land_spec, Z.shiftr_spec by assumption.
    destruct (Z.ltb_spec (i + k) n) as [Hik | Hik]; [reflexivity |].
    rewrite (testbit_small (n - k) m i) by lia.
    rewrite !andb_false_r. reflexivity.
  - destruct (Z.ltb_spec (i + k) n) as [Hik | Hik]; [lia |].
    rewrite Z.land_spec, Z.shiftr_spec by lia.
    replace (i + k - n) with (i - n + k) by lia. reflexivity.
Qed.

Lemma fold_step_cat (n k a y m M : Z) :
  0 <= k <= n -> 0 <= a < 2 ^ n -> 0 <= m < 2 ^ (n - k) ->
  fold_step k (m + 2 ^ n * M) (a + 2 ^ n * y) =
  fold_step k m a + 2 ^ n * fold_step k M y.
Proof.
  intros Hk Ha Hm. unfold fold_step.
  assert (Hmn : 0 <= m < 2 ^ n).
  { assert (2 ^ (n - k) <= 2 ^ n) by (apply Z.pow_le_mono_r; lia). lia. }
  rewrite land_cat, land_shiftr_cat by lia. ring.
Qed.

Lemma fold_step_0 (k M : Z) : fold_step k M 0 = 0.
Proof. unfold fold_step. rewrite Z.shiftr_0_l, !Z.land_0_l. reflexivity. Qed.

Lemma lor_shiftl_cat (a y : Z) :
  0 <= a < 2 ^ 8 -> Z.lor a (Z.shiftl y 8) = a + 2 ^ 8 * y.
Proof.
  intros Ha. apply Z.bits_inj'; intros i Hi.
  rewrite Z.lor_spec, Z.shiftl_spec, testbit_cat by lia.
  destruct (Z.ltb_spec i 8) as [Hlt | Hge].
  - rewrite (Z.testbit_neg_r y) by lia. apply orb_false_r.
  - rewrite (testbit_small 8 a i) by lia. reflexivity.
Qed.

Lemma le_combine_cons (b : byte) (t : list byte) :
  le_combine (b :: t) = byte.unsigned b + 2 ^ 8 * le_combine t.
Proof. cbn [le_combine]. apply lor_shiftl_cat, byte.unsigned_range. Qed.

Lemma lxor_low_byte (a y m M : Z) :
  0 <= a < 2 ^ 8 -> 0 <= m < 2 ^ 8 ->
  (Z.lxor (a + 2 ^ 8 * y) (m + 2 ^ 8 * M)) mod 2 ^ 8 = (Z.lxor a m) mod 2 ^ 8.
Proof.
  intros Ha Hm. apply Z.bits_inj'; intros i Hi.
  destruct (Z.ltb_spec i 8) as [Hlt | Hge].
  - rewrite !Z.mod_pow2_bits_low by lia.
    rewrite !Z.lxor_spec, !testbit_cat by lia.
    apply Z.ltb_lt in Hlt. rewrite Hlt. reflexivity.
  - rewrite !Z.mod_pow2_bits_high by lia. reflexivity.
Qed.

(** ** Machine conversions *)

Lemma uint32_small (z : Z) : 0 <= z < 2 ^ 32 -> uint32_t z = z.
Proof. intros H. unfold uint32_t. apply Z.mod_small, H. Qed.

Lemma int_small (z : Z) : - 2 ^ 31 <= z < 2 ^ 31 -> int z = z.
Proof. intros H. unfold int. rewrite Z.mod_small by lia. lia. Qed.

Lemma int_add_l (a b : Z) : int (int a + b) = int (a + b).
Proof.
  unfold int.
  replace ((a + 2 ^ 31) mod 2 ^ 32 - 2 ^ 31 + b + 2 ^ 31)
    with ((a + 2 ^ 31) mod 2 ^ 32 + b) by lia.
  rewrite Z.add_mod_idemp_l by lia.
  f_equal. f_equal. lia.
Qed.

Lemma int_uint32_add (c x : Z) : int (uint32_t (uint32_t c + x)) = int (c + x).
Proof.
  unfold int, uint32_t.
  rewrite Z.add_mod_idemp_l by lia.
  rewrite <- (Z.add_assoc (c mod 2 ^ 32)), Z.add_mod_idemp_l by lia.
  rewrite Z.add_assoc. reflexivity.
Qed.

(** ** The folding steps count bits *)

Lemma in_byte_range_spec (z : Z) : in_byte_range z = true -> 0 <= z < 2 ^ 8.
Proof. unfold in_byte_range. rewrite andb_true_iff. lia. Qed.

(** The byte loop body, checked on each of the 256 bytes. *)
Lemma fold_byte_ones (b : byte) : fold_byte (byte.unsigned b) = ones_in_byte b.
Proof. destruct b; vm_compute; reflexivity. Qed.

Lemma ones_in_byte_range (b : byte) : 0 <= ones_in_byte b <= 8.
Proof.
  assert (H : (0 <=? ones_in_byte b) && (ones_in_byte b <=? 8) = true)
    by (destruct b; vm_compute; reflexivity).
  apply andb_true_iff in H. lia.
Qed.

(** The first three steps of the word loop body, on one byte. *)
Lemma byte_step1 (b : byte) :
  in_byte_range (fold_step 1 MASK8_1S (byte.unsigned b)) = true.
Proof. destruct b; vm_compute; reflexivity. Qed.

Lemma byte_step2 (b : byte) :
  in_byte_range (fold_step 2 MASK8_2S (fold_step 1 MASK8_1S (byte.unsigned b))) = true.
Proof. destruct b; vm_compute; reflexivity. Qed.

Lemma byte_step3 (b : byte) :
  fold_step 4 MASK8_4S (fold_step 2 MASK8_2S (fold_step 1 MASK8_1S (byte.unsigned b)))
  = ones_in_byte b.
Proof. destruct b; vm_compute; reflexivity. Qed.

Lemma pack4_range (a0 a1 a2 a3 : Z) :
  0 <= a0 < 2 ^ 8 -> 0 <= a1 < 2 ^ 8 -> 0 <= a2 < 2 ^ 8 -> 0 <= a3 < 2 ^ 8 ->
  0 <= pack4 a0 a1 a2 a3 < 2 ^ 32.
Proof. unfold pack4. lia. Qed.

(** A step whose mask repeats a byte mask acts on the four bytes of a word
    independently. *)
Lemma fold_step_pack4 (k m a0 a1 a2 a3 : Z) :
  0 <= k <= 8 -> 0 <= m < 2 ^ (8 - k) ->
  0 <= a0 < 2 ^ 8 -> 0 <= a1 < 2 ^ 8 -> 0 <= a2 < 2 ^ 8 -> 0 <= a3 < 2 ^ 8 ->
  fold_step k (pack4 m m m m) (pack4 a0 a1 a2 a3) =
  pack4 (fold_step k m a0) (fold_step k m a1) (fold_step k m a2) (fold_step k m a3).
Proof.
  intros Hk Hm H0 H1 H2 H3. unfold pack4.
  rewrite !fold_step_cat by assumption.
  rewrite fold_step_0. reflexivity.
Qed.

(** The last two steps add four byte counts. *)
Lemma fold_word_tail (c0 c1 c2 c3 : Z) :
  0 <= c0 <= 8 -> 0 <= c1 <= 8 -> 0 <= c2 <= 8 -> 0 <= c3 <= 8 ->
  Z.land (uint32_t
    (uint32_t (fold_step 8 MASK32_8S (pack4 c0 c1 c2 c3)) +
     Z.shiftr (uint32_t (fold_step 8 MASK32_8S (pack4 c0 c1 c2 c3))) 16)) MASK32_16S
  = c0 + c1 + c2 + c3.
Proof.
  intros H0 H1 H2 H3.
  assert (E : fold_step 8 MASK32_8S (pack4 c0 c1 c2 c3) = (c0 + c1) + 2 ^ 16 * (c2 + c3)).
  { replace (pack4 c0 c1 c2 c3) with ((c0 + 2 ^ 8 * c1) + 2 ^ 16 * (c2 + 2 ^ 8 * c3))
      by (unfold pack4; lia).
    change MASK32_8S with (0xff + 2 ^ 16 * 0xff).
    rewrite fold_step_cat by lia.
    assert (S : forall c d, 0 <= c <= 8 -> 0 <= d <= 8 ->
                 fold_step 8 0xff (c + 2 ^ 8 * d) = c + d).
    { intros c d Hc Hd. unfold fold_step.
      change 0xff with (Z.ones 8).
      rewrite !Z.land_ones, Z.shiftr_div_pow2 by lia.
      rewrite (Z.mul_comm (2 ^ 8) d), Z.div_add, Z.mod_add by lia.
      rewrite (Z.div_small c), !Z.mod_small by lia. lia. }
    rewrite !S by assumption. reflexivity. }
  rewrite E.
  rewrite (uint32_small (c0 + c1 + 2 ^ 16 * (c2 + c3))) by lia.
  rewrite Z.shiftr_div_pow2 by lia.
  rewrite (Z.mul_comm (2 ^ 16)), Z.div_add by lia.
  rewrite (Z.div_small (c0 + c1)) by lia.
  rewrite uint32_small by lia.
  change MASK32_16S with (Z.ones 16).
  rewrite Z.land_ones by lia.
  replace (c0 + c1 + (c2 + c3) * 2 ^ 16 + (0 + (c2 + c3)))
    with ((c0 + c1 + c2 + c3) + (c2 + c3) * 2 ^ 16) by lia.
  rewrite Z.mod_add by lia. apply Z.mod_small. lia.
Qed.

Lemma fold_word_steps (x : Z) :
  fold_word x =
  Z.land
    (uint32_t
       (uint32_t (fold_step 8 MASK32_8S
          (uint32_t (fold_step 4 MASK32_4S
             (uint32_t (fold_step 2 MASK32_2S
                (uint32_t (fold_step 1 MASK32_1S x))))))) +
        Z.shiftr
          (uint32_t (fold_step 8 MASK32_8S
             (uint32_t (fold_step 4 MASK32_4S
                (uint32_t (fold_step 2 MASK32_2S
                   (uint32_t (fold_step 1 MASK32_1S x)))))))) 16))
    MASK32_16S.
Proof. reflexivity. Qed.

Lemma mask32_pack4 :
  MASK32_1S = pack4 MASK8_1S MASK8_1S MASK8_1S MASK8_1S /\
  MASK32_2S = pack4 MASK8_2S MASK8_2S MASK8_2S MASK8_2S /\
  MASK32_4S = pack4 MASK8_4S MASK8_4S MASK8_4S MASK8_4S.
Proof. repeat split; vm_compute; reflexivity. Qed.

(** The word loop body yields the set bits of the four bytes it read. *)
Lemma fold_word_ones (b0 b1 b2 b3 : byte) :
  fold_word (le_combine [b0; b1; b2; b3]) =
  ones_in_byte b0 + ones_in_byte b1 + ones_in_byte b2 + ones_in_byte b3.
Proof.
  rewrite !le_combine_cons, le_combine_nil.
  fold (pack4 (byte.unsigned b0) (byte.unsigned b1) (byte.unsigned b2) (byte.unsigned b3)).
  pose proof (byte.unsigned_range b0) as R0.
  pose proof (byte.unsigned_range b1) as R1.
  pose proof (byte.unsigned_range b2) as R2.
  pose proof (byte.unsigned_range b3) as R3.
  pose proof (in_byte_range_spec _ (byte_step1 b0)) as S0.
  pose proof (in_byte_range_spec _ (byte_step1 b1)) as S1.
  pose proof (in_byte_range_spec _ (byte_step1 b2)) as S2.
  pose proof (in_byte_range_spec _ (byte_step1 b3)) as S3.
  pose proof (in_byte_range_spec _ (byte_step2 b0)) as T0.
  pose proof (in_byte_range_spec _ (byte_step2 b1)) as T1.
  pose proof (in_byte_range_spec _ (byte_step2 b2)) as T2.
  pose proof (in_byte_range_spec _ (byte_step2 b3)) as T3.
  pose proof (ones_in_byte_range b0) as W0.
  pose proof (ones_in_byte_range b1) as W1.
  pose proof (ones_in_byte_range b2) as W2.
  pose proof (ones_in_byte_range b3) as W3.
  assert (M1 : 0 <= MASK8_1S < 2 ^ (8 - 1)) by (unfold MASK8_1S; lia).
  assert (M2 : 0 <= MASK8_2S < 2 ^ (8 - 2)) by (unfold MASK8_2S; lia).
  assert (M4 : 0 <= MASK8_4S < 2 ^ (8 - 4)) by (unfold MASK8_4S; lia).
  destruct mask32_pack4 as (E1 & E2 & E4).
  rewrite fold_word_steps, E1, E2, E4.
  rewrite (fold_step_pack4 1) by (assumption || lia).
  rewrite (uint32_small (pack4 _ _ _ _)) by (apply pack4_range; assumption).
  rewrite (fold_step_pack4 2) by (assumption || lia).
  rewrite (uint32_small (pack4 _ _ _ _)) by (apply pack4_range; assumption).
  rewrite (fold_step_pack4 4) by (assumption || lia).
  rewrite !byte_step3.
  rewrite (uint32_small (pack4 _ _ _ _)) by (apply pack4_range; lia).
  apply fold_word_tail; assumption.
Qed.

(** ** Lists of bytes *)

Lemma firstn_plus {A} (n m : nat) : forall l : list A,
  firstn (n + m) l = firstn n l ++ firstn m (skipn n l).
Proof.
  induction n as [| n IH]; intros l; [reflexivity |].
  destruct l as [| x l]; cbn [Nat.add firstn skipn app].
  - rewrite firstn_nil. reflexivity.
  - rewrite IH. reflexivity.
Qed.

Lemma firstn_skipn_firstn {A} (k m n : nat) (l : list A) :
  (k + m <= n)%nat -> firstn m (skipn k (firstn n l)) = firstn m (skipn k l).
Proof.
  intros H. rewrite !firstn_skipn_comm, firstn_firstn.
  rewrite Nat.min_l by lia. reflexivity.
Qed.

Lemma ones_in_cons (b : byte) (l : list byte) :
  ones_in (b :: l) = ones_in_byte b + ones_in l.
Proof. reflexivity. Qed.

Lemma ones_in_app (l1 l2 : list byte) : ones_in (l1 ++ l2) = ones_in l1 + ones_in l2.
Proof.
  induction l1 as [| b l1 IH]; [reflexivity |].
  rewrite <- app_comm_cons, !ones_in_cons, IH. ring.
Qed.

Lemma ones_in_range (l : list byte) : 0 <= ones_in l <= 8 * Z.of_nat (length l).
Proof.
  induction l as [| b l IH]; [cbn; lia |].
  rewrite ones_in_cons. cbn [length].
  pose proof (ones_in_byte_range b). lia.
Qed.

Lemma ones_in_repeat (b : byte) (n : nat) :
  ones_in (repeat b n) = Z.of_nat n * ones_in_byte b.
Proof.
  induction n as [| n IH]; [reflexivity |].
  cbn [repeat]. rewrite ones_in_cons, IH. lia.
Qed.

Lemma all_bytes_Forall (val : byte) (l : list byte) :
  all_bytes val l = true <-> Forall (eq val) l.
Proof.
  unfold all_bytes. rewrite forallb_forall, Forall_forall.
  split; intros H b Hb.
  - apply Byte.byte_dec_bl, H, Hb.
  - apply Byte.byte_dec_lb, H, Hb.
Qed.

Lemma all_bytes_app (val : byte) (l1 l2 : list byte) :
  all_bytes val (l1 ++ l2) = all_bytes val l1 && all_bytes val l2.
Proof. apply forallb_app. Qed.

Lemma all_bytes_zero_ones (l : list byte) :
  all_bytes Byte.x00 l = true -> ones_in l = 0.
Proof.
  rewrite all_bytes_Forall. induction 1 as [| b l Hb _ IH]; [reflexivity |].
  subst b. rewrite ones_in_cons, IH. reflexivity.
Qed.

Lemma firstn_memcpy (dst src : list byte) (n : nat) :
  (n <= length src)%nat -> firstn n (memcpy dst src n) = firstn n src.
Proof.
  intros H. unfold memcpy.
  rewrite firstn_app, length_firstn, firstn_firstn.
  replace (n - Nat.min n (length src))%nat with 0%nat by lia.
  rewrite Nat.min_id. cbn [firstn]. apply app_nil_r.
Qed.

Lemma length_memcpy_ge (dst src : list byte) (n : nat) :
  (n <= length src)%nat -> (n <= length (memcpy dst src n))%nat.
Proof. intros H. unfold memcpy. rewrite length_app, length_firstn. lia. Qed.

Lemma length_bytes_of_uint32 (x : Z) : length (bytes_of_uint32 x) = 4%nat.
Proof. apply length_le_split. Qed.

(** ** The loops of [count_ones] *)

(** The word loop consumes [n] bytes, leaves fewer than four (its exit
    condition), and adds the set bits of what it consumed to the counter,
    modulo 2^32. *)
Lemma count_ones_loop32_spec (fuel : nat) : forall buf len count,
  (Z.to_nat len <= fuel)%nat -> len <= Z.of_nat (length buf) -> len <= INT_MAX ->
  exists n : nat,
    count_ones_loop32 fuel buf len (int count) =
      (skipn n buf, len - Z.of_nat n, int (count + ones_in (firstn n buf))) /\
    len - Z.of_nat n < 4 /\ Z.of_nat n <= Z.max 0 len.
Proof.
  induction fuel as [| fuel IH]; intros buf len count Hfuel Hbuf Hmax.
  - exists 0%nat. cbn [count_ones_loop32 skipn firstn ones_in fold_right].
    change (Z.of_nat 0) with 0. rewrite Z.add_0_r, Z.sub_0_r.
    split; [reflexivity | lia].
  - cbn [count_ones_loop32].
    destruct (Z.leb_spec 4 len) as [H4 | H4].
    + destruct buf as [| b0 [| b1 [| b2 [| b3 rest]]]];
        cbn [length] in Hbuf; try lia.
      unfold INT_MAX in Hmax.
      rewrite (int_small (len - 4)) by lia.
      unfold deref32. cbn [firstn skipn]. rewrite fold_word_ones.
      rewrite int_uint32_add, int_add_l.
      destruct (IH rest (len - 4)
                  (count + (ones_in_byte b0 + ones_in_byte b1 +
                            ones_in_byte b2 + ones_in_byte b3)))
        as (n & E & Hlt & Hge); [lia | lia | unfold INT_MAX; lia |].
      exists (4 + n)%nat. rewrite E. cbn [Nat.add skipn firstn].
      rewrite !ones_in_cons.
      split; [| lia].
      f_equal; [f_equal; lia | f_equal; lia].
    + exists 0%nat. cbn [skipn firstn ones_in fold_right].
      change (Z.of_nat 0) with 0. rewrite Z.add_0_r, Z.sub_0_r.
      split; [reflexivity | lia].
Qed.

(** The byte loop consumes the remaining bytes and ends with no length left. *)
Lemma count_ones_loop8_spec (fuel : nat) : forall buf len count,
  (Z.to_nat len <= fuel)%nat -> len <= Z.of_nat (length buf) -> len <= INT_MAX ->
  count_ones_loop8 fuel buf len (int count) =
    (skipn (Z.to_nat len) buf, Z.min len 0,
     int (count + ones_in (firstn (Z.to_nat len) buf))).
Proof.
  induction fuel as [| fuel IH]; intros buf len count Hfuel Hbuf Hmax.
  - replace (Z.to_nat len) with 0%nat by lia.
    cbn [count_ones_loop8 skipn firstn ones_in fold_right].
    rewrite Z.add_0_r. f_equal. f_equal. lia.
  - cbn [count_ones_loop8].
    destruct (Z.ltb_spec 0 len) as [H0 | H0].
    + destruct buf as [| b rest]; cbn [length] in Hbuf; [lia |].
      unfold INT_MAX in Hmax.
      rewrite (int_small (len - 1)) by lia.
      unfold deref8. cbn [hd skipn]. rewrite fold_byte_ones, int_add_l.
      rewrite IH by (unfold INT_MAX; lia).
      replace (Z.to_nat len) with (S (Z.to_nat (len - 1))) by lia.
      cbn [skipn firstn]. rewrite ones_in_cons.
      f_equal; [f_equal; lia | f_equal; lia].
    + replace (Z.to_nat len) with 0%nat by lia.
      cbn [skipn firstn ones_in fold_right].
      rewrite Z.add_0_r. f_equal. f_equal. lia.
Qed.

(** [count_ones] returns the number of set bits of the first [len] bytes,
    converted to [int]. *)
Lemma count_ones_int (buf : list byte) (len : Z) :
  len <= Z.of_nat (length buf) -> len <= INT_MAX ->
  count_ones buf len = int (ones_in (firstn (Z.to_nat len) buf)).
Proof.
  intros Hbuf Hmax. unfold count_ones.
  destruct (count_ones_loop32_spec (Z.to_nat len) buf len 0 (Nat.le_refl _) Hbuf Hmax)
    as (n & E & Hlt & Hge).
  change (int 0) with 0 in E. rewrite E.
  rewrite count_ones_loop8_spec; [| lia | rewrite length_skipn; lia | lia].
  rewrite <- Z.add_assoc, <- ones_in_app. do 2 f_equal.
  replace (Z.to_nat len) with (n + Z.to_nat (len - Z.of_nat n))%nat by lia.
  rewrite firstn_plus. reflexivity.
Qed.

Lemma count_ones_exact (buf : list byte) (len : Z) :
  0 <= len -> len <= Z.of_nat (length buf) -> len * 8 <= INT_MAX ->
  count_ones buf len = ones_in (firstn (Z.to_nat len) buf).
Proof.
  intros H0 Hbuf Hmax. unfold INT_MAX in Hmax.
  rewrite count_ones_int by (unfold INT_MAX; lia).
  apply int_small.
  pose proof (ones_in_range (firstn (Z.to_nat len) buf)) as R.
  rewrite length_firstn in R. lia.
Qed.

Lemma count_ones_nonpos (buf : list byte) (len : Z) :
  len <= 0 -> count_ones buf len = 0.
Proof.
  intros H. unfold count_ones.
  replace (Z.to_nat len) with 0%nat by lia. cbn [count_ones_loop32].
  replace (Z.to_nat len) with 0%nat by lia. reflexivity.
Qed.

Lemma count_ones_repeat (b : byte) (n : Z) :
  0 <= n <= INT_MAX ->
  count_ones (repeat b (Z.to_nat n)) n = int (n * ones_in_byte b).
Proof.
  intros Hn.
  rewrite count_ones_int by (rewrite ?repeat_length; lia).
  rewrite <- (repeat_length b (Z.to_nat n)) at 1.
  rewrite firstn_all, ones_in_repeat, Z2Nat.id by lia. reflexivity.
Qed.

(** ** [valid_hamming_weight] on lengths whose bit count fits an [int] *)

Lemma int_mul_in_range (a b : Z) :
  INT_MIN <= a * b <= INT_MAX -> int_mul a b = Some (a * b).
Proof.
  intros H. unfold int_mul. cbv zeta.
  destruct (INT_MIN <=? a * b) eqn:E1; [| apply Z.leb_gt in E1; lia].
  destruct (a * b <=? INT_MAX) eqn:E2; [| apply Z.leb_gt in E2; lia].
  reflexivity.
Qed.

Lemma int_mul_overflow (a b : Z) :
  INT_MAX < a * b -> int_mul a b = None.
Proof.
  intros H. unfold int_mul. cbv zeta.
  destruct (a * b <=? INT_MAX) eqn:E2; [apply Z.leb_le in E2; lia |].
  rewrite andb_false_r. reflexivity.
Qed.

(** The call has a result on every length whose bit count fits an [int]:
    for [len <= 0] the count is 0 and the product is not evaluated. *)
Lemma valid_hamming_weight_defined (buf : list byte) (len : Z) :
  len * 8 <= INT_MAX ->
  valid_hamming_weight buf len =
  Some ((count_ones buf len =? 0) || (count_ones buf len =? len * 8 / 2)).
Proof.
  intros Hmax. unfold valid_hamming_weight. cbv zeta.
  destruct (Z.le_gt_cases len 0) as [Hneg | Hpos].
  - rewrite count_ones_nonpos by assumption. reflexivity.
  - destruct (count_ones buf len =? 0); [reflexivity |].
    rewrite int_mul_in_range by (unfold INT_MIN; lia).
    replace (len * 8) with (4 * len * 2) by lia.
    rewrite Z.quot_mul, Z.div_mul by lia. reflexivity.
Qed.

(** It has none exactly when a bit is counted and [len * 8] overflows. *)
Lemma valid_hamming_weight_undefined (buf : list byte) (len : Z) :
  valid_hamming_weight buf len = None <->
  count_ones buf len <> 0 /\ INT_MAX < len * 8.
Proof.
  destruct (Z.le_gt_cases (len * 8) INT_MAX) as [Hle | Hgt].
  - rewrite valid_hamming_weight_defined by assumption.
    split; [discriminate | lia].
  - unfold valid_hamming_weight. cbv zeta.
    destruct (count_ones buf len =? 0) eqn:E.
    + apply Z.eqb_eq in E. split; [discriminate | intros [H _]; contradiction].
    + apply Z.eqb_neq in E. rewrite int_mul_overflow by lia.
      split; [intros _; split; [assumption | lia] | reflexivity].
Qed.

Lemma valid_hamming_weight_eqb (buf : list byte) (len : Z) :
  0 <= len -> len <= Z.of_nat (length buf) -> len * 8 <= INT_MAX ->
  valid_hamming_weight buf len =
  Some ((ones_in (firstn (Z.to_nat len) buf) =? 0) ||
        (ones_in (firstn (Z.to_nat len) buf) =? 4 * len)).
Proof.
  intros H0 Hbuf Hmax. rewrite valid_hamming_weight_defined by assumption.
  rewrite count_ones_exact by assumption.
  replace (len * 8) with (4 * len * 2) by lia.
  rewrite Z.div_mul by lia. reflexivity.
Qed.

Lemma valid_hamming_weight_field (field : list byte) :
  Z.of_nat (length field) * 8 <= INT_MAX ->
  valid_hamming_weight field (Z.of_nat (length field)) = Some true <->
  hamming_valid field.
Proof.
  intros Hmax. rewrite valid_hamming_weight_eqb by lia.
  rewrite Nat2Z.id, firstn_all. unfold hamming_valid.
  split.
  - intros H. injection H as H.
    rewrite orb_true_iff, !Z.eqb_eq in H. exact H.
  - intros H. f_equal. rewrite orb_true_iff, !Z.eqb_eq. exact H.
Qed.

Lemma valid_hamming_weight_uint32 (x : Z) :
  valid_hamming_weight (bytes_of_uint32 x) 4 = Some true <->
  hamming_valid (bytes_of_uint32 x).
Proof.
  pose proof (valid_hamming_weight_field (bytes_of_uint32 x)) as H.
  rewrite length_bytes_of_uint32 in H. apply H. unfold INT_MAX. lia.
Qed.

(** The value [efuse_init] tests for an identity field. *)
Lemma defined_valid_hamming_weight_uint32 (x : Z) :
  defined (valid_hamming_weight (bytes_of_uint32 x) 4) = true <->
  hamming_valid (bytes_of_uint32 x).
Proof.
  rewrite <- valid_hamming_weight_uint32.
  rewrite (valid_hamming_weight_defined (bytes_of_uint32 x) 4)
    by (unfold INT_MAX; lia).
  match goal with |- context [defined (Some ?b)] => generalize b end.
  intros b. cbn [defined].
  split; [intros ->; reflexivity | intros H; injection H as H; exact H].
Qed.

Lemma not_hamming_valid_uint32 (x : Z) :
  ~ hamming_valid (bytes_of_uint32 x) ->
  defined (valid_hamming_weight (bytes_of_uint32 x) 4) = false.
Proof.
  intros H.
  destruct (defined (valid_hamming_weight (bytes_of_uint32 x) 4)) eqn:E;
    [| reflexivity].
  apply defined_valid_hamming_weight_uint32 in E. contradiction.
Qed.

Lemma hamming_valid_uint32 (x : Z) :
  hamming_valid (bytes_of_uint32 x) ->
  defined (valid_hamming_weight (bytes_of_uint32 x) 4) = true.
Proof. apply defined_valid_hamming_weight_uint32. Qed.

(** ** The loops of [is_buf_const] *)

Lemma val32_of_pack4 (val : byte) :
  val32_of (byte.unsigned val) =
  pack4 (byte.unsigned val) (byte.unsigned val) (byte.unsigned val) (byte.unsigned val).
Proof. destruct val; vm_compute; reflexivity. Qed.

Lemma unsigned_eqb (b val : byte) :
  (byte.unsigned b =? byte.unsigned val) = Byte.eqb val b.
Proof.
  destruct (Z.eqb_spec (byte.unsigned b) (byte.unsigned val)) as [E | E].
  - apply byte.unsigned_inj in E. subst b. symmetry. apply Byte.byte_dec_lb. reflexivity.
  - destruct (Byte.eqb val b) eqn:Eb; [| reflexivity].
    apply Byte.byte_dec_bl in Eb. congruence.
Qed.

(** The word comparison holds exactly when the four bytes equal [val]. *)
Lemma deref32_eqb (b0 b1 b2 b3 val : byte) (rest : list byte) :
  (deref32 (b0 :: b1 :: b2 :: b3 :: rest) =? val32_of (byte.unsigned val)) =
  all_bytes val [b0; b1; b2; b3].
Proof.
  unfold deref32. cbn [firstn].
  rewrite !le_combine_cons, le_combine_nil, val32_of_pack4.
  unfold all_bytes. cbn [forallb]. rewrite <- !unsigned_eqb.
  pose proof (byte.unsigned_range b0). pose proof (byte.unsigned_range b1).
  pose proof (byte.unsigned_range b2). pose proof (byte.unsigned_range b3).
  pose proof (byte.unsigned_range val). unfold pack4.
  destruct (Z.eqb_spec (byte.unsigned b0) (byte.unsigned val));
  destruct (Z.eqb_spec (byte.unsigned b1) (byte.unsigned val));
  destruct (Z.eqb_spec (byte.unsigned b2) (byte.unsigned val));
  destruct (Z.eqb_spec (byte.unsigned b3) (byte.unsigned val));
  cbn [andb]; first [apply Z.eqb_eq | apply Z.eqb_neq]; lia.
Qed.

Section IsBufConst.

Variable val : byte.

(** The word loop checks [n] bytes.  It returns early exactly when one of
    them differs from [val]; otherwise it leaves at most four bytes (its
    exit condition). *)
Lemma is_buf_const_loop32_spec (fuel : nat) : forall buf size,
  (Z.to_nat size <= fuel)%nat -> 0 <= size < 2 ^ 32 ->
  size <= Z.of_nat (length buf) ->
  exists n : nat,
    Z.of_nat n <= size /\
    (all_bytes val (firstn n buf) = true -> size - Z.of_nat n <= 4) /\
    is_buf_const_loop32 fuel buf size (val32_of (byte.unsigned val)) =
      if all_bytes val (firstn n buf)
      then Some (skipn n buf, size - Z.of_nat n) else None.
Proof.
  induction fuel as [| fuel IH]; intros buf size Hfuel Hsize Hbuf.
  - exists 0%nat. cbn. rewrite Z.sub_0_r.
    split; [lia | split; [lia | reflexivity]].
  - cbn [is_buf_const_loop32].
    destruct (Z.ltb_spec 4 size) as [H4 | H4].
    + destruct buf as [| b0 [| b1 [| b2 [| b3 rest]]]];
        cbn [length] in Hbuf; try lia.
      rewrite deref32_eqb.
      destruct (all_bytes val [b0; b1; b2; b3]) eqn:E4; cbn [negb].
      * rewrite uint32_small by lia. cbn [skipn].
        destruct (IH rest (size - 4)) as (n & Hn & Hr & E); [lia | lia | lia |].
        exists (4 + n)%nat. rewrite E.
        change (firstn (4 + n) (b0 :: b1 :: b2 :: b3 :: rest))
          with ([b0; b1; b2; b3] ++ firstn n rest).
        rewrite all_bytes_app, E4. cbn [andb Nat.add skipn].
        split; [lia | split].
        { intros Hall. specialize (Hr Hall). lia. }
        destruct (all_bytes val (firstn n rest)); [| reflexivity].
        do 2 f_equal. lia.
      * exists 4%nat. cbn [firstn]. rewrite E4.
        split; [lia | split; [discriminate | reflexivity]].
    + exists 0%nat. cbn. rewrite Z.sub_0_r.
      split; [lia | split; [lia | reflexivity]].
Qed.

(** The byte loop checks the remaining bytes and ends with no size left. *)
Lemma is_buf_const_loop8_spec (fuel : nat) : forall buf size,
  (Z.to_nat size <= fuel)%nat -> 0 <= size < 2 ^ 32 ->
  size <= Z.of_nat (length buf) ->
  is_buf_const_loop8 fuel buf size (byte.unsigned val) =
    if all_bytes val (firstn (Z.to_nat size) buf)
    then Some (skipn (Z.to_nat size) buf, 0) else None.
Proof.
  induction fuel as [| fuel IH]; intros buf size Hfuel Hsize Hbuf.
  - replace size with 0 by lia. reflexivity.
  - cbn [is_buf_const_loop8].
    destruct (Z.ltb_spec 0 size) as [H0 | H0].
    + destruct buf as [| b rest]; cbn [length] in Hbuf; [lia |].
      unfold deref8. cbn [hd skipn]. rewrite unsigned_eqb.
      replace (Z.to_nat size) with (S (Z.to_nat (size - 1))) by lia.
      cbn [firstn skipn]. unfold all_bytes at 1. cbn [forallb].
      destruct (Byte.eqb val b); cbn [negb andb]; [| reflexivity].
      rewrite uint32_small by lia. apply IH; lia.
    + replace size with 0 by lia. reflexivity.
Qed.

Lemma is_buf_const_all_bytes (buf : list byte) (size : Z) :
  0 <= size < 2 ^ 32 -> size <= Z.of_nat (length buf) ->
  is_buf_const buf size val = all_bytes val (firstn (Z.to_nat size) buf).
Proof.
  intros Hsize Hbuf. unfold is_buf_const.
  destruct (is_buf_const_loop32_spec (Z.to_nat size) buf size (Nat.le_refl _) Hsize Hbuf)
    as (n & Hn & Hr & E).
  rewrite E.
  assert (Hs : firstn (Z.to_nat size) buf =
               firstn n buf ++ firstn (Z.to_nat (size - Z.of_nat n)) (skipn n buf)).
  { rewrite <- firstn_plus. f_equal. lia. }
  rewrite Hs, all_bytes_app.
  destruct (all_bytes val (firstn n buf)); cbn [andb]; [| reflexivity].
  specialize (Hr eq_refl).
  rewrite is_buf_const_loop8_spec; [| lia | lia | rewrite length_skipn; lia].
  destruct (all_bytes val (firstn (Z.to_nat (size - Z.of_nat n)) (skipn n buf)));
    reflexivity.
Qed.

End IsBufConst.

(** The two tests [get_endpoint_id] makes on the secret read only its first
    32 bytes. *)
Lemma secret_is_buf_const (buf : list byte) :
  (32 <= length buf)%nat ->
  is_buf_const buf IMS_MEANINGFUL_LENGTH Byte.x00 = all_bytes Byte.x00 (firstn 32 buf).
Proof.
  intros H. unfold IMS_MEANINGFUL_LENGTH.
  rewrite is_buf_const_all_bytes by lia. reflexivity.
Qed.

Lemma secret_valid_hamming_weight (buf : list byte) :
  (32 <= length buf)%nat ->
  defined (valid_hamming_weight buf IMS_MEANINGFUL_LENGTH) =
  (ones_in (firstn 32 buf) =? 0) || (ones_in (firstn 32 buf) =? 128).
Proof.
  intros H. unfold IMS_MEANINGFUL_LENGTH.
  rewrite valid_hamming_weight_eqb by (unfold INT_MAX; lia). reflexivity.
Qed.

(** ** The bit counter, the validator and the constant-buffer test *)

Lemma ones_in_firstn_repeat (b : byte) (n : nat) :
  ones_in (firstn n (repeat b n)) = Z.of_nat n * ones_in_byte b.
Proof.
  rewrite <- (repeat_length b n) at 1. rewrite firstn_all. apply ones_in_repeat.
Qed.

(** C2, as the claim states it, fails where the bit count leaves the range
    of [int]: on a quarter of a gibibyte of bytes 0xFF the buffer has 2^31
    set bits and [count_ones] returns -2^31, which is neither the number of
    set bits nor in [0, len * 8]. *)
Lemma count_ones_wraps_past_int_max :
  count_ones (repeat Byte.xff (Z.to_nat QUARTER_GIB)) QUARTER_GIB = - 2147483648 /\
  ones_in (firstn (Z.to_nat QUARTER_GIB) (repeat Byte.xff (Z.to_nat QUARTER_GIB)))
  = 2147483648 /\
  0 <= QUARTER_GIB.
Proof.
  split; [| split].
  - rewrite count_ones_repeat by (unfold QUARTER_GIB, INT_MAX; lia).
    vm_compute. reflexivity.
  - rewrite ones_in_firstn_repeat, Z2Nat.id by (unfold QUARTER_GIB; lia).
    vm_compute. reflexivity.
  - unfold QUARTER_GIB. lia.
Qed.

(** C2 (amended): for every buffer and every byte length [len] with
    [0 <= len] that the buffer covers and whose bit count [len * 8] fits an
    [int] ([len * 8 <= INT_MAX]), [count_ones buf len] is the number of set
    bits of the first [len] bytes, hence lies in [0, len * 8]; the result
    does not depend on where the buffer is split into chunks (counting the
    first [k] bytes and the remaining [len - k] bytes separately gives the
    same total); and the count of a length-0 buffer is 0. *)
Theorem count_ones_counts_set_bits (buf : list byte) (len : Z) :
  0 <= len -> len <= Z.of_nat (length buf) -> len * 8 <= INT_MAX ->
  count_ones buf len = ones_in (firstn (Z.to_nat len) buf) /\
  0 <= count_ones buf len <= len * 8 /\
  (forall k, 0 <= k <= len ->
     count_ones buf len =
     count_ones buf k + count_ones (skipn (Z.to_nat k) buf) (len - k)) /\
  count_ones buf 0 = 0.
Proof.
  intros H0 Hbuf Hmax.
  split; [apply count_ones_exact; assumption |].
  split.
  { rewrite count_ones_exact by assumption.
    pose proof (ones_in_range (firstn (Z.to_nat len) buf)) as R.
    rewrite length_firstn in R. lia. }
  split; [| apply count_ones_nonpos; lia].
  intros k Hk.
  rewrite !count_ones_exact by (rewrite ?length_skipn; lia).
  replace (Z.to_nat len) with (Z.to_nat k + Z.to_nat (len - k))%nat by lia.
  rewrite firstn_plus, ones_in_app. reflexivity.
Qed.

Lemma count_ones_counts_set_bits_witness :
  count_ones [Byte.xff; Byte.x01; Byte.x03; Byte.x80; Byte.x07] 5 =
  ones_in (firstn (Z.to_nat 5) [Byte.xff; Byte.x01; Byte.x03; Byte.x80; Byte.x07]).
Proof.
  apply (count_ones_counts_set_bits
           [Byte.xff; Byte.x01; Byte.x03; Byte.x80; Byte.x07] 5);
    [lia | simpl; lia | unfold INT_MAX; lia].
Defined.



(** C4: for every buffer, every size (a [uint32_t]) that the buffer covers
    and every byte value, [is_buf_const buf size val] is true if and only if
    each of the first [size] bytes equals [val]; the answer does not depend
    on where the word-wise and the byte-wise comparison split the buffer
    (testing the first [k] and the remaining [size - k] bytes separately
    gives the same answer); and it is true for size 0. *)
Theorem is_buf_const_iff (buf : list byte) (size : Z) (val : byte) :
  0 <= size < 2 ^ 32 -> size <= Z.of_nat (length buf) ->
  (is_buf_const buf size val = true <->
   Forall (eq val) (firstn (Z.to_nat size) buf)) /\
  (forall k, 0 <= k <= size ->
     is_buf_const buf size val =
     is_buf_const buf k val && is_buf_const (skipn (Z.to_nat k) buf) (size - k) val) /\
  is_buf_const buf 0 val = true.
Proof.
  intros Hsize Hbuf.
  split; [| split].
  - rewrite is_buf_const_all_bytes by assumption. apply all_bytes_Forall.
  - intros k Hk.
    rewrite !is_buf_const_all_bytes by (rewrite ?length_skipn; lia).
    replace (Z.to_nat size) with (Z.to_nat k + Z.to_nat (size - k))%nat by lia.
    rewrite firstn_plus. apply all_bytes_app.
  - rewrite is_buf_const_all_bytes by lia. reflexivity.
Qed.

Lemma is_buf_const_iff_witness :
  is_buf_const (repeat Byte.x00 35) 32 Byte.x00 = true <->
  Forall (eq Byte.x00) (firstn (Z.to_nat 32) (repeat Byte.x00 35)).
Proof.
  apply (is_buf_const_iff (repeat Byte.x00 35) 32 Byte.x00); simpl; lia.
Defined.

(** ** The boot-time sequence *)

Section EfuseInit.

Variable hw : chip.
Variable Hash : list byte -> list byte.
Variable TSB_ECCERROR_ECC_ERROR : Z.
Variable simulation : bool.

(** The object [endpoint_id] points to before the call of
    [get_endpoint_id]; in [efuse_init], the bytes of its uninitialised
    local. *)
Variable endpoint_id : large_uint.t.

(** [get_endpoint_id] by the content of the secret: not provisioned,
    validly set, or invalid. *)
Lemma get_endpoint_id_cases (st : state) :
  (32 <= length (ims hw))%nat ->
  get_endpoint_id hw Hash simulation endpoint_id st =
  let s1 := snd (tsb_get_ims hw IMS_MEANINGFUL_LENGTH st) in
  if all_bytes Byte.x00 (secret hw) then ((false, large_uint.set_quad 0 endpoint_id), s1)
  else if (ones_in (secret hw) =? 0) || (ones_in (secret hw) =? 128) then
    let (u, s2) :=
      (if simulation
       then ret (large_uint.set_high 0x9ABCDEF0
                   (large_uint.set_low 0x12345678 (large_uint.set_quad 0 endpoint_id)))
       else compute_endpoint_uid Hash (large_uint.set_quad 0 endpoint_id)) s1 in
    ((true, u), s2)
  else ((false, large_uint.set_quad 0 endpoint_id), snd (set_last_error BRE_EFUSE_BAD_IMS s1)).
Proof.
  intros Hlen. unfold get_endpoint_id, bind, secret.
  cbn [tsb_get_ims snd log ims_value].
  change (Z.to_nat IMS_MEANINGFUL_LENGTH) with 32%nat.
  rewrite secret_is_buf_const, secret_valid_hamming_weight
    by (apply length_memcpy_ge; exact Hlen).
  rewrite firstn_memcpy by exact Hlen.
  destruct (all_bytes Byte.x00 (firstn 32 (ims hw))); cbn [negb]; [reflexivity |].
  destruct ((ones_in (firstn 32 (ims hw)) =? 0) || (ones_in (firstn 32 (ims hw)) =? 128));
    cbn [negb]; reflexivity.
Qed.

Lemma efuse_init_bad_vid (st : state) :
  ecc_ok hw TSB_ECCERROR_ECC_ERROR -> ~ hamming_valid (vid_field hw) ->
  efuse_init hw Hash TSB_ECCERROR_ECC_ERROR simulation endpoint_id st =
  (-1, {| last_error := BRE_EFUSE_BAD_ARA_VID;
          ara_vid := uint32_t (vid hw); ara_pid := ara_pid st;
          ims_value := ims_value st; hash_ctx := hash_ctx st;
          trace := trace st ++ [EvGetEccError; EvGetVid] |}).
Proof.
  unfold ecc_ok, vid_field. intros Hecc Hvid.
  unfold efuse_init, bind, tsb_get_eccerror, tsb_get_vid, set_ara_vid.
  rewrite Hecc. cbn [Z.eqb negb].
  rewrite (not_hamming_valid_uint32 _ Hvid). cbn.
  rewrite <- app_assoc. reflexivity.
Qed.

Lemma efuse_init_bad_pid (st : state) :
  ecc_ok hw TSB_ECCERROR_ECC_ERROR ->
  hamming_valid (vid_field hw) -> ~ hamming_valid (pid_field hw) ->
  efuse_init hw Hash TSB_ECCERROR_ECC_ERROR simulation endpoint_id st =
  (-1, {| last_error := BRE_EFUSE_BAD_ARA_PID;
          ara_vid := uint32_t (vid hw); ara_pid := uint32_t (pid hw);
          ims_value := ims_value st; hash_ctx := hash_ctx st;
          trace := trace st ++ [EvGetEccError; EvGetVid; EvGetPid] |}).
Proof.
  unfold ecc_ok, vid_field, pid_field. intros Hecc Hvid Hpid.
  unfold efuse_init, bind, tsb_get_eccerror, tsb_get_vid, set_ara_vid,
    tsb_get_pid, set_ara_pid.
  rewrite Hecc. cbn [Z.eqb negb].
  rewrite (hamming_valid_uint32 _ Hvid). cbn [negb].
  rewrite (not_hamming_valid_uint32 _ Hpid). cbn.
  rewrite <- !app_assoc. reflexivity.
Qed.

(** With the ECC check and both identity fields passing, [efuse_init] is
    its tail from the call of [get_endpoint_id] on. *)
Lemma efuse_init_identity_ok (st : state) :
  ecc_ok hw TSB_ECCERROR_ECC_ERROR ->
  hamming_valid (vid_field hw) -> hamming_valid (pid_field hw) ->
  efuse_init hw Hash TSB_ECCERROR_ECC_ERROR simulation endpoint_id st =
  (r <- get_endpoint_id hw Hash simulation endpoint_id ;;
   let '(have_endpoint_id, endpoint_id) := r in
   if negb have_endpoint_id then
     e <- get_last_error ;;
     if negb (bootrom_error_eqb e BRE_OK) then ret (-1) else ret 0
   else
     urc <- chip_unipro_attr_write hw DME_DDBL2_ENDPOINTID_L
              (large_uint.low endpoint_id) ;;
     if negb (urc =? 0) then
       set_last_error BRE_EFUSE_ENDPOINT_ID_WRITE ;; ret (-1)
     else
       urc <- chip_unipro_attr_write hw DME_DDBL2_ENDPOINTID_H
                (large_uint.high endpoint_id) ;;
       if negb (urc =? 0) then
         set_last_error BRE_EFUSE_ENDPOINT_ID_WRITE ;; ret (-1)
       else ret 0)%efuse (before_secret hw st).
Proof.
  unfold ecc_ok, vid_field, pid_field. intros Hecc Hvid Hpid.
  unfold efuse_init.
  unfold bind at 1. unfold tsb_get_eccerror at 1. rewrite Hecc. cbn [Z.eqb negb].
  unfold bind at 1. unfold tsb_get_vid at 1.
  unfold bind at 1. unfold set_ara_vid at 1.
  rewrite (hamming_valid_uint32 _ Hvid). cbn [negb].
  unfold bind at 1. unfold tsb_get_pid at 1.
  unfold bind at 1. unfold set_ara_pid at 1.
  rewrite (hamming_valid_uint32 _ Hpid). cbn [negb].
  unfold before_secret, log. cbn [last_error ara_vid ara_pid ims_value hash_ctx trace].
  rewrite <- !app_assoc. reflexivity.
Qed.

(** C5: whenever the ECC status has the error bit set, [efuse_init] returns
    -1 with the last error set to [BRE_EFUSE_ECC], and the only access to
    the chip is the read of the ECC status: no identity field and no secret
    is read, and the cached identity and the secret buffer are untouched. *)
Theorem efuse_init_ecc_error (st : state) :
  ~ ecc_ok hw TSB_ECCERROR_ECC_ERROR ->
  fst (efuse_init hw Hash TSB_ECCERROR_ECC_ERROR simulation endpoint_id st) = -1 /\
  last_error (snd (efuse_init hw Hash TSB_ECCERROR_ECC_ERROR simulation endpoint_id st))
  = BRE_EFUSE_ECC /\
  trace (snd (efuse_init hw Hash TSB_ECCERROR_ECC_ERROR simulation endpoint_id st))
  = trace st ++ [EvGetEccError] /\
  ims_value (snd (efuse_init hw Hash TSB_ECCERROR_ECC_ERROR simulation endpoint_id st))
  = ims_value st /\
  ara_vid (snd (efuse_init hw Hash TSB_ECCERROR_ECC_ERROR simulation endpoint_id st))
  = ara_vid st /\
  ara_pid (snd (efuse_init hw Hash TSB_ECCERROR_ECC_ERROR simulation endpoint_id st))
  = ara_pid st.
Proof.
  unfold ecc_ok. intros Hecc. unfold efuse_init, bind, tsb_get_eccerror.
  destruct (Z.eqb_spec (Z.land (uint32_t (eccerror hw)) TSB_ECCERROR_ECC_ERROR) 0)
    as [E | E]; [contradiction |].
  cbn. repeat split; reflexivity.
Qed.

(** C6: when the ECC check passes and the vendor ID fails the Hamming-weight
    check, [efuse_init] returns -1 with the last error
    [BRE_EFUSE_BAD_ARA_VID], having read the ECC status and the vendor ID
    only; the product ID is read and checked only if the vendor ID passed,
    and its failure gives the distinct code [BRE_EFUSE_BAD_ARA_PID]. *)
Theorem efuse_init_vid_before_pid (st : state) :
  ecc_ok hw TSB_ECCERROR_ECC_ERROR ->
  (~ hamming_valid (vid_field hw) ->
   fst (efuse_init hw Hash TSB_ECCERROR_ECC_ERROR simulation endpoint_id st) = -1 /\
   last_error (snd (efuse_init hw Hash TSB_ECCERROR_ECC_ERROR simulation endpoint_id st))
   = BRE_EFUSE_BAD_ARA_VID /\
   trace (snd (efuse_init hw Hash TSB_ECCERROR_ECC_ERROR simulation endpoint_id st))
   = trace st ++ [EvGetEccError; EvGetVid]) /\
  (hamming_valid (vid_field hw) -> ~ hamming_valid (pid_field hw) ->
   fst (efuse_init hw Hash TSB_ECCERROR_ECC_ERROR simulation endpoint_id st) = -1 /\
   last_error (snd (efuse_init hw Hash TSB_ECCERROR_ECC_ERROR simulation endpoint_id st))
   = BRE_EFUSE_BAD_ARA_PID /\
   trace (snd (efuse_init hw Hash TSB_ECCERROR_ECC_ERROR simulation endpoint_id st))
   = trace st ++ [EvGetEccError; EvGetVid; EvGetPid]) /\
  (forall evs,
     trace (snd (efuse_init hw Hash TSB_ECCERROR_ECC_ERROR simulation endpoint_id st))
     = trace st ++ evs ->
     In EvGetPid evs -> hamming_valid (vid_field hw)) /\
  BRE_EFUSE_BAD_ARA_PID <> BRE_EFUSE_BAD_ARA_VID.
Proof.
  intros Hecc. split; [| split; [| split]].
  - intros Hvid. rewrite efuse_init_bad_vid by assumption. cbn. auto.
  - intros Hvid Hpid. rewrite efuse_init_bad_pid by assumption. cbn. auto.
  - intros evs Htrace Hin.
    destruct (defined (valid_hamming_weight (vid_field hw) 4)) eqn:E.
    + apply defined_valid_hamming_weight_uint32, E.
    + assert (Hvid : ~ hamming_valid (vid_field hw)).
      { intros H. apply hamming_valid_uint32 in H. unfold vid_field in E. congruence. }
      rewrite efuse_init_bad_vid in Htrace by assumption. cbn in Htrace.
      apply app_inv_head in Htrace. subst evs.
      cbn in Hin. destruct Hin as [H | [H | []]]; discriminate H.
  - discriminate.
Qed.

(** C7: when the ECC check and both identity checks pass, the 32 meaningful
    secret bytes are all zero and no error is recorded at entry,
    [efuse_init] returns 0, the last error is still [BRE_OK], and the only
    accesses are the reads of the ECC status, the two identity fields and
    the secret: the hash primitive is not used (no identifier is derived)
    and no attribute is written. *)
Theorem efuse_init_no_secret (st : state) :
  ecc_ok hw TSB_ECCERROR_ECC_ERROR ->
  hamming_valid (vid_field hw) -> hamming_valid (pid_field hw) ->
  secret hw = repeat Byte.x00 32 ->
  last_error st = BRE_OK ->
  fst (efuse_init hw Hash TSB_ECCERROR_ECC_ERROR simulation endpoint_id st) = 0 /\
  last_error (snd (efuse_init hw Hash TSB_ECCERROR_ECC_ERROR simulation endpoint_id st))
  = BRE_OK /\
  trace (snd (efuse_init hw Hash TSB_ECCERROR_ECC_ERROR simulation endpoint_id st))
  = trace st ++ [EvGetEccError; EvGetVid; EvGetPid; EvGetIms IMS_MEANINGFUL_LENGTH] /\
  fst (get_endpoint_id hw Hash simulation endpoint_id (before_secret hw st))
  = (false, large_uint.set_quad 0 endpoint_id).
Proof.
  intros Hecc Hvid Hpid Hzero Hok.
  assert (Hlen : (32 <= length (ims hw))%nat).
  { apply (f_equal (@length byte)) in Hzero. unfold secret in Hzero.
    rewrite length_firstn, repeat_length in Hzero. lia. }
  assert (G : get_endpoint_id hw Hash simulation endpoint_id (before_secret hw st) =
              ((false, large_uint.set_quad 0 endpoint_id),
               snd (tsb_get_ims hw IMS_MEANINGFUL_LENGTH (before_secret hw st)))).
  { rewrite get_endpoint_id_cases by exact Hlen. rewrite Hzero. reflexivity. }
  assert (E : efuse_init hw Hash TSB_ECCERROR_ECC_ERROR simulation endpoint_id st =
              (0, snd (tsb_get_ims hw IMS_MEANINGFUL_LENGTH (before_secret hw st)))).
  { rewrite efuse_init_identity_ok by assumption.
    unfold bind at 1. rewrite G. cbn [negb]. unfold bind, get_last_error.
    cbn [tsb_get_ims snd log last_error before_secret].
    rewrite Hok. reflexivity. }
  rewrite E, G. cbn. rewrite <- app_assoc. auto.
Qed.

(** C8: when the ECC check and both identity checks pass and the 32
    meaningful secret bytes have a set-bit count that is neither 0 (so they
    are not all zero) nor 128, [efuse_init] returns -1 with the last error
    [BRE_EFUSE_BAD_IMS], a code distinct from [BRE_OK], which the
    not-provisioned outcome leaves; the accesses are the same four reads,
    so no attribute is written. *)
Theorem efuse_init_bad_secret (st : state) :
  ecc_ok hw TSB_ECCERROR_ECC_ERROR ->
  hamming_valid (vid_field hw) -> hamming_valid (pid_field hw) ->
  (32 <= length (ims hw))%nat ->
  ones_in (secret hw) <> 0 -> ones_in (secret hw) <> 128 ->
  fst (efuse_init hw Hash TSB_ECCERROR_ECC_ERROR simulation endpoint_id st) = -1 /\
  last_error (snd (efuse_init hw Hash TSB_ECCERROR_ECC_ERROR simulation endpoint_id st))
  = BRE_EFUSE_BAD_IMS /\
  BRE_EFUSE_BAD_IMS <> BRE_OK /\
  trace (snd (efuse_init hw Hash TSB_ECCERROR_ECC_ERROR simulation endpoint_id st))
  = trace st ++ [EvGetEccError; EvGetVid; EvGetPid; EvGetIms IMS_MEANINGFUL_LENGTH].
Proof.
  intros Hecc Hvid Hpid Hlen Hnz Hnh.
  assert (E : efuse_init hw Hash TSB_ECCERROR_ECC_ERROR simulation endpoint_id st =
              (-1, snd (set_last_error BRE_EFUSE_BAD_IMS
                          (snd (tsb_get_ims hw IMS_MEANINGFUL_LENGTH
                                  (before_secret hw st)))))).
  { rewrite efuse_init_identity_ok by assumption.
    unfold bind at 1. rewrite get_endpoint_id_cases by exact Hlen.
    destruct (all_bytes Byte.x00 (secret hw)) eqn:Ez.
    { apply all_bytes_zero_ones in Ez. contradiction. }
    apply Z.eqb_neq in Hnz, Hnh. rewrite Hnz, Hnh. cbn [orb].
    cbv zeta. cbn [negb]. reflexivity. }
  rewrite E. cbn. rewrite <- app_assoc.
  repeat split; try reflexivity. discriminate.
Qed.

(** The zeroed object: its eight bytes are zero, and the bytes behind it are
    the caller's. *)
Lemma set_quad_zero (u : large_uint.t) :
  firstn 8 (large_uint.set_quad 0 u) = repeat Byte.x00 8 /\
  large_uint.quad (large_uint.set_quad 0 u) = 0 /\
  skipn 8 (large_uint.set_quad 0 u) = skipn 8 u.
Proof. repeat split; reflexivity. Qed.

(** C10: [get_endpoint_id] zeroes the caller's [endpoint_id] object at
    entry, whatever bytes the caller left in it, and in every run in which
    it returns false the object at return is that zeroed object: each of its
    eight bytes is zero, so [quad] reads 0, and nothing behind the object is
    touched. *)
Theorem get_endpoint_id_false_zero (st : state) :
  fst (fst (get_endpoint_id hw Hash simulation endpoint_id st)) = false ->
  snd (fst (get_endpoint_id hw Hash simulation endpoint_id st))
  = large_uint.set_quad 0 endpoint_id /\
  firstn 8 (snd (fst (get_endpoint_id hw Hash simulation endpoint_id st)))
  = repeat Byte.x00 8 /\
  large_uint.quad (snd (fst (get_endpoint_id hw Hash simulation endpoint_id st))) = 0 /\
  skipn 8 (snd (fst (get_endpoint_id hw Hash simulation endpoint_id st)))
  = skipn 8 endpoint_id.
Proof.
  intros Hfalse.
  assert (E : snd (fst (get_endpoint_id hw Hash simulation endpoint_id st))
              = large_uint.set_quad 0 endpoint_id).
  { revert Hfalse. unfold get_endpoint_id, bind. cbn [tsb_get_ims].
    destruct (is_buf_const _ _ _); cbn [negb]; [intros _; reflexivity |].
    destruct (defined (valid_hamming_weight _ _)); cbn [negb];
      [| intros _; reflexivity].
    destruct simulation.
    - cbn. discriminate.
    - unfold ret. destruct (compute_endpoint_uid _ _ _). cbn. discriminate. }
  rewrite E. split; [reflexivity | apply set_quad_zero].
Qed.

End EfuseInit.

Lemma efuse_init_ecc_error_witness :
  fst (efuse_init chip_ecc_error stand_in_digest 1 false stale_endpoint_id boot_state) = -1 /\
  last_error (snd (efuse_init chip_ecc_error stand_in_digest 1 false stale_endpoint_id boot_state))
  = BRE_EFUSE_ECC /\
  trace (snd (efuse_init chip_ecc_error stand_in_digest 1 false stale_endpoint_id boot_state))
  = trace boot_state ++ [EvGetEccError] /\
  ims_value (snd (efuse_init chip_ecc_error stand_in_digest 1 false stale_endpoint_id boot_state))
  = ims_value boot_state /\
  ara_vid (snd (efuse_init chip_ecc_error stand_in_digest 1 false stale_endpoint_id boot_state))
  = ara_vid boot_state /\
  ara_pid (snd (efuse_init chip_ecc_error stand_in_digest 1 false stale_endpoint_id boot_state))
  = ara_pid boot_state.
Proof.
  apply (efuse_init_ecc_error chip_ecc_error stand_in_digest 1 false stale_endpoint_id boot_state).
  intros H. vm_compute in H. discriminate H.
Defined.

Lemma efuse_init_vid_before_pid_witness :
  (fst (efuse_init chip_bad_vid stand_in_digest 1 false stale_endpoint_id boot_state) = -1 /\
   last_error (snd (efuse_init chip_bad_vid stand_in_digest 1 false stale_endpoint_id boot_state))
   = BRE_EFUSE_BAD_ARA_VID /\
   trace (snd (efuse_init chip_bad_vid stand_in_digest 1 false stale_endpoint_id boot_state))
   = trace boot_state ++ [EvGetEccError; EvGetVid]) /\
  (fst (efuse_init chip_bad_pid stand_in_digest 1 false stale_endpoint_id boot_state) = -1 /\
   last_error (snd (efuse_init chip_bad_pid stand_in_digest 1 false stale_endpoint_id boot_state))
   = BRE_EFUSE_BAD_ARA_PID /\
   trace (snd (efuse_init chip_bad_pid stand_in_digest 1 false stale_endpoint_id boot_state))
   = trace boot_state ++ [EvGetEccError; EvGetVid; EvGetPid]).
Proof.
  split.
  - apply (efuse_init_vid_before_pid chip_bad_vid stand_in_digest 1 false stale_endpoint_id boot_state).
    + vm_compute. reflexivity.
    + intros [H | H]; vm_compute in H; discriminate H.
  - apply (efuse_init_vid_before_pid chip_bad_pid stand_in_digest 1 false stale_endpoint_id boot_state).
    + vm_compute. reflexivity.
    + right. vm_compute. reflexivity.
    + intros [H | H]; vm_compute in H; discriminate H.
Defined.

Lemma efuse_init_no_secret_witness :
  fst (efuse_init chip_no_secret stand_in_digest 1 false stale_endpoint_id boot_state) = 0 /\
  last_error (snd (efuse_init chip_no_secret stand_in_digest 1 false stale_endpoint_id boot_state))
  = BRE_OK /\
  trace (snd (efuse_init chip_no_secret stand_in_digest 1 false stale_endpoint_id boot_state))
  = trace boot_state ++
    [EvGetEccError; EvGetVid; EvGetPid; EvGetIms IMS_MEANINGFUL_LENGTH] /\
  fst (get_endpoint_id chip_no_secret stand_in_digest false stale_endpoint_id
         (before_secret chip_no_secret boot_state))
  = (false, large_uint.set_quad 0 stale_endpoint_id).
Proof.
  apply (efuse_init_no_secret chip_no_secret stand_in_digest 1 false stale_endpoint_id boot_state).
  - vm_compute. reflexivity.
  - right. vm_compute. reflexivity.
  - right. vm_compute. reflexivity.
  - vm_compute. reflexivity.
  - reflexivity.
Defined.

Lemma efuse_init_bad_secret_witness :
  fst (efuse_init chip_bad_secret stand_in_digest 1 false stale_endpoint_id boot_state) = -1 /\
  last_error (snd (efuse_init chip_bad_secret stand_in_digest 1 false stale_endpoint_id boot_state))
  = BRE_EFUSE_BAD_IMS /\
  BRE_EFUSE_BAD_IMS <> BRE_OK /\
  trace (snd (efuse_init chip_bad_secret stand_in_digest 1 false stale_endpoint_id boot_state))
  = trace boot_state ++
    [EvGetEccError; EvGetVid; EvGetPid; EvGetIms IMS_MEANINGFUL_LENGTH].
Proof.
  apply (efuse_init_bad_secret chip_bad_secret stand_in_digest 1 false stale_endpoint_id boot_state).
  - vm_compute. reflexivity.
  - right. vm_compute. reflexivity.
  - right. vm_compute. reflexivity.
  - simpl. lia.
  - intros H. vm_compute in H. discriminate H.
  - intros H. vm_compute in H. discriminate H.
Defined.

Lemma get_endpoint_id_false_zero_witness :
  firstn 8
    (snd (fst (get_endpoint_id chip_bad_secret stand_in_digest false
                 stale_endpoint_id boot_state)))
  = repeat Byte.x00 8.
Proof.
  apply (get_endpoint_id_false_zero chip_bad_secret stand_in_digest false
           stale_endpoint_id boot_state).
  vm_compute. reflexivity.
Defined.

(** ** The derivation of the endpoint identifier *)

(** What [compute_endpoint_uid] stores depends on the state only through the
    [ims_value] buffer. *)
Lemma compute_endpoint_uid_value (Hash : list byte -> list byte)
  (endpoint_id : large_uint.t) (s : state) :
  fst (compute_endpoint_uid Hash (large_uint.set_quad 0 endpoint_id) s) =
  derived_endpoint_id Hash endpoint_id (ims_value s).
Proof.
  cbv [compute_endpoint_uid bind hash_start hash_update hash_final ret for_loop
       set_hash_ctx log fst snd hash_ctx ims_value].
  unfold derived_endpoint_id, session1_input. cbn [flat_map app].
  rewrite <- !app_assoc. reflexivity.
Qed.

(** The first session reads four words, all within the first 16 bytes. *)
Lemma session1_input_firstn (buf : list byte) :
  session1_input (firstn 16 buf) = session1_input buf.
Proof.
  unfold session1_input, deref32. cbn [flat_map].
  rewrite !firstn_skipn_firstn by lia. reflexivity.
Qed.

Lemma derived_endpoint_id_firstn (Hash : list byte -> list byte)
  (endpoint_id : large_uint.t) (buf : list byte) :
  derived_endpoint_id Hash endpoint_id (firstn 16 buf) =
  derived_endpoint_id Hash endpoint_id buf.
Proof. unfold derived_endpoint_id. rewrite session1_input_firstn. reflexivity. Qed.

(** Of each word XORed with 0x3d3d3d3d, [hash_update] with length 1 feeds
    the first byte in memory. *)
Lemma first_byte_xor (b0 b1 b2 b3 : byte) (rest : list byte) :
  firstn 1 (bytes_of_uint32
              (Z.lxor (deref32 (b0 :: b1 :: b2 :: b3 :: rest)) 0x3d3d3d3d)) =
  [byte.xor b0 Byte.x3d].
Proof.
  change (bytes_of_uint32 ?x) with (byte.of_Z x :: le_split 3 (Z.shiftr x 8)).
  unfold deref32. cbn [firstn]. f_equal.
  apply byte.unsigned_inj. unfold byte.xor.
  rewrite !byte.unsigned_of_Z. unfold byte.wrap.
  rewrite le_combine_cons.
  change 0x3d3d3d3d with (0x3d + 2 ^ 8 * 0x3d3d3d).
  change (byte.unsigned Byte.x3d) with 0x3d.
  apply lxor_low_byte; [apply byte.unsigned_range | lia].
Qed.

(** For every secret, the first session receives four bytes: bytes 0, 4, 8
    and 12 of the secret, each XORed with 0x3d. *)
Lemma session1_input_bytes
  (b0 b1 b2 b3 b4 b5 b6 b7 b8 b9 b10 b11 b12 b13 b14 b15 : byte) (rest : list byte) :
  session1_input (b0 :: b1 :: b2 :: b3 :: b4 :: b5 :: b6 :: b7 :: b8 :: b9 :: b10 ::
                  b11 :: b12 :: b13 :: b14 :: b15 :: rest) =
  [byte.xor b0 Byte.x3d; byte.xor b4 Byte.x3d; byte.xor b8 Byte.x3d;
   byte.xor b12 Byte.x3d].
Proof.
  unfold session1_input. cbn [flat_map Nat.mul Nat.add skipn].
  rewrite !first_byte_xor. reflexivity.
Qed.

Lemma firstn16_memcpy (dst src : list byte) :
  (32 <= length src)%nat ->
  firstn 16 (memcpy dst src 32) = firstn 16 (firstn 32 src).
Proof.
  intros H. rewrite <- (firstn_memcpy dst src 32 H).
  rewrite firstn_firstn. reflexivity.
Qed.

(** On a secret of weight 128, [get_endpoint_id] returns true with the
    simulation constant or with the identifier derived from the first 16
    bytes of the secret. *)
Lemma get_endpoint_id_valid (Hash : list byte -> list byte) (simulation : bool)
  (hw : chip) (endpoint_id : large_uint.t) (st : state) :
  (32 <= length (ims hw))%nat -> ones_in (secret hw) = 128 ->
  fst (get_endpoint_id hw Hash simulation endpoint_id st) =
  (true,
   if simulation
   then large_uint.set_high 0x9ABCDEF0
          (large_uint.set_low 0x12345678 (large_uint.set_quad 0 endpoint_id))
   else derived_endpoint_id Hash endpoint_id (firstn 16 (secret hw))).
Proof.
  intros Hlen Hw. rewrite get_endpoint_id_cases by exact Hlen.
  destruct (all_bytes Byte.x00 (secret hw)) eqn:Ez.
  { apply all_bytes_zero_ones in Ez. lia. }
  rewrite Hw. cbn [Z.eqb orb]. cbv zeta.
  destruct simulation; [reflexivity |].
  pose proof (compute_endpoint_uid_value Hash endpoint_id
                (snd (tsb_get_ims hw IMS_MEANINGFUL_LENGTH st))) as E.
  destruct (compute_endpoint_uid Hash (large_uint.set_quad 0 endpoint_id)
              (snd (tsb_get_ims hw IMS_MEANINGFUL_LENGTH st))) as [u s2].
  cbn [fst] in E. cbn [fst]. rewrite E.
  cbn [tsb_get_ims snd log ims_value].
  change (Z.to_nat IMS_MEANINGFUL_LENGTH) with 32%nat.
  rewrite <- derived_endpoint_id_firstn, firstn16_memcpy by exact Hlen.
  reflexivity.
Qed.

(** On any other secret it returns false with the identifier zero. *)
Lemma get_endpoint_id_not_valid (Hash : list byte -> list byte) (simulation : bool)
  (hw : chip) (endpoint_id : large_uint.t) (st : state) :
  (32 <= length (ims hw))%nat -> ones_in (secret hw) <> 128 ->
  fst (get_endpoint_id hw Hash simulation endpoint_id st)
  = (false, large_uint.set_quad 0 endpoint_id).
Proof.
  intros Hlen Hw. rewrite get_endpoint_id_cases by exact Hlen. cbv zeta.
  destruct (all_bytes Byte.x00 (secret hw)) eqn:Ez; [reflexivity |].
  apply Z.eqb_neq in Hw. rewrite Hw, orb_false_r.
  destruct (Z.eqb_spec (ones_in (secret hw)) 0) as [E0 | E0]; [| reflexivity].
  exfalso.
  assert (Hall : all_bytes Byte.x00 (secret hw) = true); [| congruence].
  apply all_bytes_Forall.
  revert E0. generalize (secret hw) as l.
  induction l as [| b l IH]; intros E0; constructor.
  - rewrite ones_in_cons in E0.
    pose proof (ones_in_byte_range b). pose proof (ones_in_range l).
    assert (Hb : ones_in_byte b = 0) by lia.
    revert Hb. destruct b; vm_compute; congruence.
  - apply IH. rewrite ones_in_cons in E0.
    pose proof (ones_in_byte_range b). pose proof (ones_in_range l). lia.
Qed.





(** C1 at the secret [balanced_secret] (weight 128, not all zero), in the
    non-simulation build: [get_endpoint_id] derives the identifier from a
    first session that receives 4 bytes (bytes 0, 4, 8 and 12 of the secret
    XORed with 0x3d) and a second session that receives Y1 followed by 8
    bytes 0x01, where the chain of the claim hashes 16 bytes and Y1 followed
    by 32 bytes 0x01; with the stand-in digest the two identifiers
    differ. *)
Theorem get_endpoint_id_feeds_one_byte_per_word
  (Hash : list byte -> list byte) (endpoint_id : large_uint.t) (st : state) :
  fst (get_endpoint_id chip_provisioned Hash false endpoint_id st) =
  (true,
   memcpy (large_uint.set_quad 0 endpoint_id)
     (Hash (firstn 32
        (Hash (firstn 32 (Hash [Byte.x32; Byte.x68; Byte.x01; Byte.x54])
               ++ repeat Byte.x01 8)))) 8) /\
  spec_endpoint_id Hash balanced_secret =
  firstn 8
    (Hash (Hash (Hash [Byte.x32; Byte.xcd; Byte.x0e; Byte.xf1;
                       Byte.x68; Byte.x97; Byte.x5b; Byte.xa4;
                       Byte.x01; Byte.xfe; Byte.x67; Byte.x98;
                       Byte.x54; Byte.xab; Byte.x32; Byte.xcd]
                 ++ repeat Byte.x01 32))) /\
  firstn 8 (snd (fst (get_endpoint_id chip_provisioned stand_in_digest false
                        endpoint_id st)))
  <> spec_endpoint_id stand_in_digest balanced_secret.
Proof.
  assert (Hlen : (32 <= length (ims chip_provisioned))%nat) by (simpl; lia).
  assert (Hw : ones_in (secret chip_provisioned) = 128) by (vm_compute; reflexivity).
  split; [| split].
  - rewrite (get_endpoint_id_valid Hash false chip_provisioned endpoint_id st Hlen Hw).
    unfold derived_endpoint_id.
    change (firstn 16 (secret chip_provisioned)) with (firstn 16 balanced_secret).
    unfold balanced_secret. cbn [firstn app repeat].
    rewrite session1_input_bytes. reflexivity.
  - reflexivity.
  - rewrite (get_endpoint_id_valid stand_in_digest false chip_provisioned
               endpoint_id st Hlen Hw).
    vm_compute. discriminate.
Qed.

(** * Further properties of the code *)

(** ** Population counts by value *)

Lemma set_bits_succ (n : nat) (x : Z) :
  set_bits (S n) x = Z.b2z (Z.testbit x 0) + set_bits n (Z.shiftr x 1).
Proof.
  unfold set_bits. cbn [seq fold_right]. change (Z.of_nat 0) with 0. f_equal.
  rewrite <- seq_shift.
  generalize (seq 0 n) as l. induction l as [| i l IH]; [reflexivity |].
  cbn [map fold_right]. rewrite IH. f_equal. f_equal.
  rewrite Z.shiftr_spec by lia. f_equal. lia.
Qed.

Lemma set_bits_add (m n : nat) : forall x,
  set_bits (m + n) x = set_bits m x + set_bits n (Z.shiftr x (Z.of_nat m)).
Proof.
  induction m as [| m IH]; intros x.
  - cbn [Nat.add]. change (Z.of_nat 0) with 0. rewrite Z.shiftr_0_r. reflexivity.
  - cbn [Nat.add]. rewrite !set_bits_succ, IH.
    rewrite Z.shiftr_shiftr by lia.
    replace (1 + Z.of_nat m) with (Z.of_nat (S m)) by lia. lia.
Qed.

Lemma ones_in_byte_of_Z (y : Z) : ones_in_byte (byte.of_Z y) = set_bits 8 y.
Proof.
  unfold ones_in_byte, set_bits. rewrite byte.unsigned_of_Z. unfold byte.wrap.
  cbn [seq fold_right].
  rewrite !Z.mod_pow2_bits_low by lia. reflexivity.
Qed.

Lemma bytes_of_uint32_unfold (x : Z) :
  bytes_of_uint32 x =
  [byte.of_Z x; byte.of_Z (Z.shiftr x 8); byte.of_Z (Z.shiftr (Z.shiftr x 8) 8);
   byte.of_Z (Z.shiftr (Z.shiftr (Z.shiftr x 8) 8) 8)].
Proof. reflexivity. Qed.

Lemma ones_in_bytes_of_uint32 (x : Z) : ones_in (bytes_of_uint32 x) = set_bits 32 x.
Proof.
  rewrite bytes_of_uint32_unfold.
  rewrite !ones_in_cons, !ones_in_byte_of_Z.
  change 32%nat with (8 + (8 + (8 + 8)))%nat.
  rewrite !set_bits_add. change (Z.of_nat 8) with 8.
  change (ones_in []) with 0. rewrite !Z.shiftr_shiftr by lia. lia.
Qed.

(** X6: the word body and the byte body of [count_ones] compute the
    population count of their operand. *)
Theorem fold_word_popcount (x : Z) :
  (0 <= x < 2 ^ 32 -> fold_word x = set_bits 32 x) /\
  (0 <= x < 2 ^ 8 -> fold_byte x = set_bits 8 x).
Proof.
  split; intros Hx.
  2: { rewrite <- ones_in_byte_of_Z, <- fold_byte_ones.
       rewrite byte.unsigned_of_Z. unfold byte.wrap.
       rewrite Z.mod_small by lia. reflexivity. }
  rewrite <- ones_in_bytes_of_uint32.
  rewrite <- (Z.mod_small x (2 ^ 32)) at 1 by lia.
  change (2 ^ 32) with (2 ^ (Z.of_nat 4 * 8)).
  rewrite <- le_combine_split.
  fold (bytes_of_uint32 x). rewrite bytes_of_uint32_unfold.
  rewrite fold_word_ones, !ones_in_cons. change (ones_in []) with 0. lia.
Qed.

Lemma fold_word_popcount_witness :
  fold_word 0xf0f0a501 = set_bits 32 0xf0f0a501 /\
  fold_byte 0xa5 = set_bits 8 0xa5.
Proof.
  split.
  - apply (fold_word_popcount 0xf0f0a501). lia.
  - apply (fold_word_popcount 0xa5). lia.
Defined.

(** X7: a 32-bit identity value passes the Hamming-weight check exactly when
    0 or 16 of its 32 bits are set. *)
Theorem valid_hamming_weight_uint32_value (x : Z) :
  valid_hamming_weight (bytes_of_uint32 x) 4 = Some true <->
  set_bits 32 x = 0 \/ set_bits 32 x = 16.
Proof.
  rewrite valid_hamming_weight_uint32. unfold hamming_valid.
  rewrite length_bytes_of_uint32, ones_in_bytes_of_uint32. reflexivity.
Qed.

(** X8: for a length that is zero or negative [valid_hamming_weight] accepts
    every buffer. *)
Theorem valid_hamming_weight_nonpos (buf : list byte) (len : Z) :
  len <= 0 -> valid_hamming_weight buf len = Some true.
Proof.
  intros H. unfold valid_hamming_weight.
  rewrite count_ones_nonpos by exact H. reflexivity.
Qed.

Lemma valid_hamming_weight_nonpos_witness :
  valid_hamming_weight [Byte.x01; Byte.x07] (-2) = Some true.
Proof. apply (valid_hamming_weight_nonpos [Byte.x01; Byte.x07] (-2)). lia. Defined.



(** ** The secret path and the publication of the identifier *)

Lemma new_events_app (st st' : state) (evs : list event) :
  trace st' = trace st ++ evs -> new_events st st' = evs.
Proof.
  intros E. unfold new_events. rewrite E, skipn_app, skipn_all, Nat.sub_diag.
  reflexivity.
Qed.

Lemma ones_in_zero_all_bytes (l : list byte) :
  ones_in l = 0 -> all_bytes Byte.x00 l = true.
Proof.
  intros E0. apply all_bytes_Forall. revert E0.
  induction l as [| b l IH]; intros E0; constructor.
  - rewrite ones_in_cons in E0.
    pose proof (ones_in_byte_range b). pose proof (ones_in_range l).
    assert (Hb : ones_in_byte b = 0) by lia.
    revert Hb. destruct b; vm_compute; congruence.
  - apply IH. rewrite ones_in_cons in E0.
    pose proof (ones_in_byte_range b). pose proof (ones_in_range l). lia.
Qed.

(** [compute_endpoint_uid] touches the hash context and the trace only, and
    all it adds to the trace are calls of the hash primitive. *)
Lemma compute_endpoint_uid_state (Hash : list byte -> list byte)
  (ep : large_uint.t) (s : state) :
  last_error (snd (compute_endpoint_uid Hash ep s)) = last_error s /\
  ims_value (snd (compute_endpoint_uid Hash ep s)) = ims_value s /\
  exists evs,
    trace (snd (compute_endpoint_uid Hash ep s)) = trace s ++ evs /\
    forallb is_hash_call evs = true.
Proof.
  cbv [compute_endpoint_uid bind hash_start hash_update hash_final ret for_loop
       set_hash_ctx log fst snd hash_ctx ims_value last_error trace].
  split; [reflexivity | split; [reflexivity |]].
  rewrite <- !app_assoc. eexists. split; reflexivity.
Qed.

Section SecretPath.

Variable hw : chip.
Variable Hash : list byte -> list byte.
Variable TSB_ECCERROR_ECC_ERROR : Z.
Variable simulation : bool.

(** The object [endpoint_id] points to before the call of
    [get_endpoint_id]; in [efuse_init], the bytes of its uninitialised
    local. *)
Variable endpoint_id : large_uint.t.

(** The state [get_endpoint_id] leaves, by the content of the secret. *)
Lemma get_endpoint_id_state (s : state) :
  (32 <= length (ims hw))%nat ->
  firstn 32 (ims_value (snd (get_endpoint_id hw Hash simulation endpoint_id s))) = secret hw /\
  (ones_in (secret hw) = 0 \/ ones_in (secret hw) = 128 ->
   last_error (snd (get_endpoint_id hw Hash simulation endpoint_id s)) = last_error s) /\
  (ones_in (secret hw) <> 0 -> ones_in (secret hw) <> 128 ->
   last_error (snd (get_endpoint_id hw Hash simulation endpoint_id s)) = BRE_EFUSE_BAD_IMS) /\
  exists evs,
    trace (snd (get_endpoint_id hw Hash simulation endpoint_id s)) =
      trace s ++ EvGetIms IMS_MEANINGFUL_LENGTH :: evs /\
    forallb is_hash_call evs = true /\
    (simulation = true \/ ones_in (secret hw) <> 128 -> evs = []).
Proof.
  intros Hlen. rewrite get_endpoint_id_cases by exact Hlen. cbv zeta.
  assert (Hims : firstn 32 (ims_value (snd (tsb_get_ims hw IMS_MEANINGFUL_LENGTH s)))
                 = secret hw).
  { cbn [tsb_get_ims snd log ims_value].
    change (Z.to_nat IMS_MEANINGFUL_LENGTH) with 32%nat.
    apply firstn_memcpy, Hlen. }
  assert (Herr : last_error (snd (tsb_get_ims hw IMS_MEANINGFUL_LENGTH s))
                 = last_error s) by reflexivity.
  assert (Htr : trace (snd (tsb_get_ims hw IMS_MEANINGFUL_LENGTH s))
                = trace s ++ [EvGetIms IMS_MEANINGFUL_LENGTH]) by reflexivity.
  destruct (all_bytes Byte.x00 (secret hw)) eqn:Ez.
  { apply all_bytes_zero_ones in Ez. cbn [snd].
    split; [exact Hims | split; [intros _; exact Herr | split; [lia |]]].
    exists []. split; [exact Htr | split; [reflexivity | reflexivity]]. }
  assert (Hnz : ones_in (secret hw) <> 0).
  { intros E0. apply ones_in_zero_all_bytes in E0. congruence. }
  destruct (Z.eqb_spec (ones_in (secret hw)) 128) as [Ew | Ew].
  - rewrite orb_true_r.
    destruct simulation.
    + cbn [ret snd].
      split; [exact Hims | split; [intros _; exact Herr | split; [lia |]]].
      exists []. split; [exact Htr | split; [reflexivity | reflexivity]].
    + destruct (compute_endpoint_uid_state Hash (large_uint.set_quad 0 endpoint_id)
                  (snd (tsb_get_ims hw IMS_MEANINGFUL_LENGTH s)))
        as (Ce & Ci & evs & Ct & Ch).
      destruct (compute_endpoint_uid Hash (large_uint.set_quad 0 endpoint_id)
                  (snd (tsb_get_ims hw IMS_MEANINGFUL_LENGTH s))) as [u s2].
      cbn [snd] in *.
      split; [rewrite Ci; exact Hims |].
      split; [intros _; rewrite Ce; exact Herr |].
      split; [lia |].
      exists evs. rewrite Ct, Htr, <- app_assoc.
      split; [reflexivity | split; [exact Ch |]].
      intros [H | H]; [discriminate | contradiction].
  - apply Z.eqb_neq in Hnz. rewrite Hnz. cbn [orb snd set_last_error].
    cbn [ims_value last_error trace].
    split; [exact Hims |].
    split; [apply Z.eqb_neq in Hnz; lia |].
    split; [reflexivity |].
    exists []. split; [exact Htr | split; reflexivity].
Qed.

(** X10: given the 32 secret bytes, [get_endpoint_id] returns true exactly
    when 128 of their bits are set; it records [BRE_EFUSE_BAD_IMS] exactly
    when the count is neither 0 nor 128 and leaves the last error as it was
    otherwise. *)
Theorem get_endpoint_id_classifies (s : state) :
  (32 <= length (ims hw))%nat ->
  (fst (fst (get_endpoint_id hw Hash simulation endpoint_id s)) = true <->
   ones_in (secret hw) = 128) /\
  (ones_in (secret hw) = 0 \/ ones_in (secret hw) = 128 ->
   last_error (snd (get_endpoint_id hw Hash simulation endpoint_id s)) = last_error s) /\
  (ones_in (secret hw) <> 0 -> ones_in (secret hw) <> 128 ->
   last_error (snd (get_endpoint_id hw Hash simulation endpoint_id s)) = BRE_EFUSE_BAD_IMS).
Proof.
  intros Hlen.
  destruct (get_endpoint_id_state s Hlen) as (_ & Hok & Hbad & _).
  split; [| split; assumption].
  destruct (Z.eq_dec (ones_in (secret hw)) 128) as [Ew | Ew].
  - rewrite (get_endpoint_id_valid Hash simulation hw endpoint_id s Hlen Ew). cbn [fst].
    split; auto.
  - rewrite (get_endpoint_id_not_valid Hash simulation hw endpoint_id s Hlen Ew). cbn [fst].
    split; [discriminate | contradiction].
Qed.

(** X11: in the simulation build [get_endpoint_id] returns, for every secret
    of weight 128, the halves 0x12345678 and 0x9ABCDEF0, and never calls the
    hash primitive. *)
Theorem get_endpoint_id_simulation (s : state) :
  simulation = true ->
  (32 <= length (ims hw))%nat -> ones_in (secret hw) = 128 ->
  fst (fst (get_endpoint_id hw Hash simulation endpoint_id s)) = true /\
  large_uint.low (snd (fst (get_endpoint_id hw Hash simulation endpoint_id s))) = 0x12345678 /\
  large_uint.high (snd (fst (get_endpoint_id hw Hash simulation endpoint_id s))) = 0x9ABCDEF0 /\
  trace (snd (get_endpoint_id hw Hash simulation endpoint_id s)) =
  trace s ++ [EvGetIms IMS_MEANINGFUL_LENGTH].
Proof.
  intros Hsim Hlen Hw.
  destruct (get_endpoint_id_state s Hlen) as (_ & _ & _ & evs & Ht & _ & Hnil).
  rewrite (Hnil (or_introl Hsim)) in Ht.
  rewrite (get_endpoint_id_valid Hash simulation hw endpoint_id s Hlen Hw).
  rewrite Hsim in Ht |- *. cbn [fst snd].
  split; [reflexivity | split; [vm_compute; reflexivity |]].
  split; [vm_compute; reflexivity | exact Ht].
Qed.

(** The tail of [efuse_init] after [get_endpoint_id] returned true. *)
Lemma efuse_init_valid_secret (st : state) :
  ecc_ok hw TSB_ECCERROR_ECC_ERROR ->
  hamming_valid (vid_field hw) -> hamming_valid (pid_field hw) ->
  (32 <= length (ims hw))%nat -> ones_in (secret hw) = 128 ->
  efuse_init hw Hash TSB_ECCERROR_ECC_ERROR simulation endpoint_id st =
  let g := get_endpoint_id hw Hash simulation endpoint_id (before_secret hw st) in
  let u := snd (fst g) in
  (urc <- chip_unipro_attr_write hw DME_DDBL2_ENDPOINTID_L (large_uint.low u) ;;
   if negb (urc =? 0) then
     set_last_error BRE_EFUSE_ENDPOINT_ID_WRITE ;; ret (-1)
   else
     urc <- chip_unipro_attr_write hw DME_DDBL2_ENDPOINTID_H (large_uint.high u) ;;
     if negb (urc =? 0) then
       set_last_error BRE_EFUSE_ENDPOINT_ID_WRITE ;; ret (-1)
     else ret 0)%efuse (snd g).
Proof.
  intros Hecc Hvid Hpid Hlen Hw.
  rewrite efuse_init_identity_ok by assumption. cbv zeta.
  unfold bind at 1.
  pose proof (get_endpoint_id_valid Hash simulation hw endpoint_id (before_secret hw st) Hlen Hw) as G.
  destruct (get_endpoint_id hw Hash simulation endpoint_id (before_secret hw st)) as [[have u] s2].
  cbn [fst snd] in *. inversion G; subst. reflexivity.
Qed.

(** X12: with the ECC check, both identity checks and the secret passing and
    both attribute writes accepted, [efuse_init] returns 0, leaves the last
    error as it was, and its last two accesses are the write of the low
    half to [DME_DDBL2_ENDPOINTID_L], then the write of the high half to
    [DME_DDBL2_ENDPOINTID_H], of the identifier [get_endpoint_id] returned. *)
Theorem efuse_init_publishes (st : state) :
  ecc_ok hw TSB_ECCERROR_ECC_ERROR ->
  hamming_valid (vid_field hw) -> hamming_valid (pid_field hw) ->
  (32 <= length (ims hw))%nat -> ones_in (secret hw) = 128 ->
  attr_write_result hw DME_DDBL2_ENDPOINTID_L
    (large_uint.low
       (snd (fst (get_endpoint_id hw Hash simulation endpoint_id (before_secret hw st))))) = 0 ->
  attr_write_result hw DME_DDBL2_ENDPOINTID_H
    (large_uint.high
       (snd (fst (get_endpoint_id hw Hash simulation endpoint_id (before_secret hw st))))) = 0 ->
  fst (efuse_init hw Hash TSB_ECCERROR_ECC_ERROR simulation endpoint_id st) = 0 /\
  last_error (snd (efuse_init hw Hash TSB_ECCERROR_ECC_ERROR simulation endpoint_id st))
  = last_error st /\
  trace (snd (efuse_init hw Hash TSB_ECCERROR_ECC_ERROR simulation endpoint_id st)) =
  trace (snd (get_endpoint_id hw Hash simulation endpoint_id (before_secret hw st))) ++
  [EvAttrWrite DME_DDBL2_ENDPOINTID_L
     (large_uint.low
        (snd (fst (get_endpoint_id hw Hash simulation endpoint_id (before_secret hw st)))));
   EvAttrWrite DME_DDBL2_ENDPOINTID_H
     (large_uint.high
        (snd (fst (get_endpoint_id hw Hash simulation endpoint_id (before_secret hw st)))))].
Proof.
  intros Hecc Hvid Hpid Hlen Hw HL HH.
  rewrite efuse_init_valid_secret by assumption. cbv zeta.
  destruct (get_endpoint_id_state (before_secret hw st) Hlen) as (_ & Hok & _).
  specialize (Hok (or_intror Hw)).
  unfold bind, chip_unipro_attr_write. rewrite HL. cbn [Z.eqb negb].
  rewrite HH. cbn [Z.eqb negb ret fst snd log last_error trace].
  rewrite <- app_assoc. auto.
Qed.

(** X13: when the write of the low half is refused, [efuse_init] returns -1
    with the last error [BRE_EFUSE_ENDPOINT_ID_WRITE] and does not attempt
    the write of the high half. *)
Theorem efuse_init_low_write_fails (st : state) :
  ecc_ok hw TSB_ECCERROR_ECC_ERROR ->
  hamming_valid (vid_field hw) -> hamming_valid (pid_field hw) ->
  (32 <= length (ims hw))%nat -> ones_in (secret hw) = 128 ->
  attr_write_result hw DME_DDBL2_ENDPOINTID_L
    (large_uint.low
       (snd (fst (get_endpoint_id hw Hash simulation endpoint_id (before_secret hw st))))) <> 0 ->
  fst (efuse_init hw Hash TSB_ECCERROR_ECC_ERROR simulation endpoint_id st) = -1 /\
  last_error (snd (efuse_init hw Hash TSB_ECCERROR_ECC_ERROR simulation endpoint_id st))
  = BRE_EFUSE_ENDPOINT_ID_WRITE /\
  trace (snd (efuse_init hw Hash TSB_ECCERROR_ECC_ERROR simulation endpoint_id st)) =
  trace (snd (get_endpoint_id hw Hash simulation endpoint_id (before_secret hw st))) ++
  [EvAttrWrite DME_DDBL2_ENDPOINTID_L
     (large_uint.low
        (snd (fst (get_endpoint_id hw Hash simulation endpoint_id (before_secret hw st)))))].
Proof.
  intros Hecc Hvid Hpid Hlen Hw HL.
  rewrite efuse_init_valid_secret by assumption. cbv zeta.
  unfold bind, chip_unipro_attr_write.
  apply Z.eqb_neq in HL. rewrite HL.
  cbn [negb set_last_error ret fst snd log last_error trace]. auto.
Qed.

(** X14: when the write of the low half is accepted and the write of the high
    half is refused, [efuse_init] returns -1 with the last error
    [BRE_EFUSE_ENDPOINT_ID_WRITE]; the low half stays written (both writes
    are in the trace and nothing follows them). *)
Theorem efuse_init_high_write_fails (st : state) :
  ecc_ok hw TSB_ECCERROR_ECC_ERROR ->
  hamming_valid (vid_field hw) -> hamming_valid (pid_field hw) ->
  (32 <= length (ims hw))%nat -> ones_in (secret hw) = 128 ->
  attr_write_result hw DME_DDBL2_ENDPOINTID_L
    (large_uint.low
       (snd (fst (get_endpoint_id hw Hash simulation endpoint_id (before_secret hw st))))) = 0 ->
  attr_write_result hw DME_DDBL2_ENDPOINTID_H
    (large_uint.high
       (snd (fst (get_endpoint_id hw Hash simulation endpoint_id (before_secret hw st))))) <> 0 ->
  fst (efuse_init hw Hash TSB_ECCERROR_ECC_ERROR simulation endpoint_id st) = -1 /\
  last_error (snd (efuse_init hw Hash TSB_ECCERROR_ECC_ERROR simulation endpoint_id st))
  = BRE_EFUSE_ENDPOINT_ID_WRITE /\
  trace (snd (efuse_init hw Hash TSB_ECCERROR_ECC_ERROR simulation endpoint_id st)) =
  trace (snd (get_endpoint_id hw Hash simulation endpoint_id (before_secret hw st))) ++
  [EvAttrWrite DME_DDBL2_ENDPOINTID_L
     (large_uint.low
        (snd (fst (get_endpoint_id hw Hash simulation endpoint_id (before_secret hw st)))));
   EvAttrWrite DME_DDBL2_ENDPOINTID_H
     (large_uint.high
        (snd (fst (get_endpoint_id hw Hash simulation endpoint_id (before_secret hw st)))))].
Proof.
  intros Hecc Hvid Hpid Hlen Hw HL HH.
  rewrite efuse_init_valid_secret by assumption. cbv zeta.
  unfold bind, chip_unipro_attr_write. rewrite HL. cbn [Z.eqb negb].
  apply Z.eqb_neq in HH. rewrite HH.
  cbn [negb set_last_error ret fst snd log last_error trace].
  rewrite <- app_assoc. auto.
Qed.

(** [efuse_init] when the ECC status has the error bit set. *)
Lemma efuse_init_ecc_fail (st : state) :
  ~ ecc_ok hw TSB_ECCERROR_ECC_ERROR ->
  efuse_init hw Hash TSB_ECCERROR_ECC_ERROR simulation endpoint_id st =
  (-1, snd (set_last_error BRE_EFUSE_ECC (log EvGetEccError st))).
Proof.
  unfold ecc_ok. intros Hecc. unfold efuse_init, bind, tsb_get_eccerror.
  destruct (Z.eqb_spec (Z.land (uint32_t (eccerror hw)) TSB_ECCERROR_ECC_ERROR) 0)
    as [E | E]; [contradiction | reflexivity].
Qed.

(** [efuse_init] when [get_endpoint_id] returns false. *)
Lemma efuse_init_no_identifier (st : state) :
  ecc_ok hw TSB_ECCERROR_ECC_ERROR ->
  hamming_valid (vid_field hw) -> hamming_valid (pid_field hw) ->
  (32 <= length (ims hw))%nat -> ones_in (secret hw) <> 128 ->
  efuse_init hw Hash TSB_ECCERROR_ECC_ERROR simulation endpoint_id st =
  (if negb (bootrom_error_eqb
              (last_error (snd (get_endpoint_id hw Hash simulation endpoint_id (before_secret hw st))))
              BRE_OK)
   then -1 else 0,
   snd (get_endpoint_id hw Hash simulation endpoint_id (before_secret hw st))).
Proof.
  intros Hecc Hvid Hpid Hlen Hw.
  rewrite efuse_init_identity_ok by assumption.
  unfold bind at 1.
  pose proof (get_endpoint_id_not_valid Hash simulation hw endpoint_id (before_secret hw st) Hlen Hw)
    as G.
  destruct (get_endpoint_id hw Hash simulation endpoint_id (before_secret hw st)) as [[have u] s2].
  cbn [fst snd] in *. inversion G; subst. cbn [negb].
  unfold bind, get_last_error.
  destruct (negb (bootrom_error_eqb (last_error s2) BRE_OK)); reflexivity.
Qed.

Lemma hamming_valid_dec (x : Z) :
  hamming_valid (bytes_of_uint32 x) \/ ~ hamming_valid (bytes_of_uint32 x).
Proof.
  destruct (defined (valid_hamming_weight (bytes_of_uint32 x) 4)) eqn:E.
  - left. apply defined_valid_hamming_weight_uint32, E.
  - right. intros H. apply hamming_valid_uint32 in H. congruence.
Qed.

(** X15: [efuse_init] writes an attribute only from validated fuses: if a
    call adds an attribute write to the trace, then the ECC check passed,
    both identity fields are valid and the secret has exactly 128 set
    bits. *)
Theorem efuse_init_writes_only_validated (st : state) :
  (32 <= length (ims hw))%nat ->
  existsb is_attr_write
    (new_events st (snd (efuse_init hw Hash TSB_ECCERROR_ECC_ERROR simulation endpoint_id st)))
  = true ->
  ecc_ok hw TSB_ECCERROR_ECC_ERROR /\
  hamming_valid (vid_field hw) /\ hamming_valid (pid_field hw) /\
  ones_in (secret hw) = 128.
Proof.
  intros Hlen Hw.
  destruct (Z.eq_dec (Z.land (uint32_t (eccerror hw)) TSB_ECCERROR_ECC_ERROR) 0)
    as [Hecc | Hecc].
  2: { rewrite efuse_init_ecc_fail in Hw by exact Hecc.
       rewrite (new_events_app st _ [EvGetEccError]) in Hw by reflexivity.
       discriminate Hw. }
  destruct (hamming_valid_dec (uint32_t (vid hw))) as [Hvid | Hvid].
  2: { rewrite efuse_init_bad_vid in Hw by assumption.
       rewrite (new_events_app st _ [EvGetEccError; EvGetVid]) in Hw by reflexivity.
       discriminate Hw. }
  destruct (hamming_valid_dec (uint32_t (pid hw))) as [Hpid | Hpid].
  2: { rewrite efuse_init_bad_pid in Hw by assumption.
       rewrite (new_events_app st _ [EvGetEccError; EvGetVid; EvGetPid]) in Hw
         by reflexivity.
       discriminate Hw. }
  destruct (Z.eq_dec (ones_in (secret hw)) 128) as [Hs | Hs]; [auto |].
  exfalso.
  rewrite efuse_init_no_identifier in Hw by assumption. cbn [snd] in Hw.
  destruct (get_endpoint_id_state (before_secret hw st) Hlen)
    as (_ & _ & _ & evs & Ht & _ & Hnil).
  rewrite (Hnil (or_intror Hs)) in Ht.
  rewrite (new_events_app st _
             [EvGetEccError; EvGetVid; EvGetPid; EvGetIms IMS_MEANINGFUL_LENGTH]) in Hw.
  - discriminate Hw.
  - rewrite Ht. cbn [before_secret trace]. rewrite <- app_assoc. reflexivity.
Qed.

(** X16: whenever [efuse_init] gets as far as reading the secret, the 32
    secret bytes are still in the static buffer [ims_value] when it
    returns, on the success path and on every failure path: nothing clears
    the buffer. *)
Theorem efuse_init_keeps_secret_in_buffer (st : state) :
  ecc_ok hw TSB_ECCERROR_ECC_ERROR ->
  hamming_valid (vid_field hw) -> hamming_valid (pid_field hw) ->
  (32 <= length (ims hw))%nat ->
  firstn 32 (ims_value (snd (efuse_init hw Hash TSB_ECCERROR_ECC_ERROR simulation endpoint_id st)))
  = secret hw.
Proof.
  intros Hecc Hvid Hpid Hlen.
  destruct (get_endpoint_id_state (before_secret hw st) Hlen) as (Hims & _).
  destruct (Z.eq_dec (ones_in (secret hw)) 128) as [Hs | Hs].
  - rewrite efuse_init_valid_secret by assumption. cbv zeta.
    unfold bind, chip_unipro_attr_write.
    destruct (negb (attr_write_result hw DME_DDBL2_ENDPOINTID_L _ =? 0));
      [exact Hims |].
    destruct (negb (attr_write_result hw DME_DDBL2_ENDPOINTID_H _ =? 0));
      exact Hims.
  - rewrite efuse_init_no_identifier by assumption. exact Hims.
Qed.

(** [get_endpoint_id] and the last error, for every chip and state. *)
Lemma get_endpoint_id_error (s : state) :
  (fst (fst (get_endpoint_id hw Hash simulation endpoint_id s)) = true /\
   last_error (snd (get_endpoint_id hw Hash simulation endpoint_id s)) = last_error s) \/
  (fst (fst (get_endpoint_id hw Hash simulation endpoint_id s)) = false /\
   (last_error (snd (get_endpoint_id hw Hash simulation endpoint_id s)) = last_error s \/
    last_error (snd (get_endpoint_id hw Hash simulation endpoint_id s)) = BRE_EFUSE_BAD_IMS)).
Proof.
  unfold get_endpoint_id, bind. cbn [tsb_get_ims].
  destruct (is_buf_const _ _ _); cbn [negb]; [right; cbn; auto |].
  destruct (defined (valid_hamming_weight _ _)); cbn [negb]; [| right; cbn; auto].
  left. destruct simulation; [cbn; auto |].
  match goal with
  | |- context [compute_endpoint_uid Hash ?ep ?s0] =>
      destruct (compute_endpoint_uid_state Hash ep s0) as (Ce & _);
      destruct (compute_endpoint_uid Hash ep s0) as [u s2]
  end.
  cbn in *. auto.
Qed.

(** X17: started with no error recorded, [efuse_init] returns either 0 with
    the last error still [BRE_OK], or -1 with an error code recorded: the
    return code and the last error never disagree, whatever the chip
    answers. *)
Theorem efuse_init_return_code (st : state) :
  last_error st = BRE_OK ->
  (fst (efuse_init hw Hash TSB_ECCERROR_ECC_ERROR simulation endpoint_id st) = 0 /\
   last_error (snd (efuse_init hw Hash TSB_ECCERROR_ECC_ERROR simulation endpoint_id st))
   = BRE_OK) \/
  (fst (efuse_init hw Hash TSB_ECCERROR_ECC_ERROR simulation endpoint_id st) = -1 /\
   last_error (snd (efuse_init hw Hash TSB_ECCERROR_ECC_ERROR simulation endpoint_id st))
   <> BRE_OK).
Proof.
  intros Hok.
  destruct (Z.eq_dec (Z.land (uint32_t (eccerror hw)) TSB_ECCERROR_ECC_ERROR) 0)
    as [Hecc | Hecc].
  2: { right. rewrite efuse_init_ecc_fail by exact Hecc.
       split; [reflexivity | discriminate]. }
  destruct (hamming_valid_dec (uint32_t (vid hw))) as [Hvid | Hvid].
  2: { right. rewrite efuse_init_bad_vid by assumption.
       split; [reflexivity | discriminate]. }
  destruct (hamming_valid_dec (uint32_t (pid hw))) as [Hpid | Hpid].
  2: { right. rewrite efuse_init_bad_pid by assumption.
       split; [reflexivity | discriminate]. }
  remember (efuse_init hw Hash TSB_ECCERROR_ECC_ERROR simulation endpoint_id st) as r eqn:Er.
  rewrite efuse_init_identity_ok in Er by assumption.
  pose proof (get_endpoint_id_error (before_secret hw st)) as G.
  unfold bind at 1 in Er.
  destruct (get_endpoint_id hw Hash simulation endpoint_id (before_secret hw st)) as [[have u] s2].
  cbn [fst snd] in G. change (last_error (before_secret hw st)) with (last_error st) in G.
  rewrite Hok in G.
  destruct G as [[Hh He] | [Hh He]]; subst have; cbn [negb] in Er.
  - unfold bind, chip_unipro_attr_write in Er.
    destruct (negb (attr_write_result hw DME_DDBL2_ENDPOINTID_L (large_uint.low u) =? 0)).
    { right. subst r. split; [reflexivity | discriminate]. }
    destruct (negb (attr_write_result hw DME_DDBL2_ENDPOINTID_H (large_uint.high u) =? 0)).
    { right. subst r. split; [reflexivity | discriminate]. }
    left. subst r. split; [reflexivity | exact He].
  - unfold bind, get_last_error in Er.
    destruct He as [He | He]; rewrite He in Er;
      cbn [bootrom_error_eqb negb] in Er; subst r; unfold ret; cbn [fst snd].
    + left. split; [reflexivity | exact He].
    + right. split; [reflexivity | rewrite He; discriminate].
Qed.

End SecretPath.

(** ** The hex-dump utilities *)

(** The countdown loop runs its body for [i], [i - 1], ..., 0 and leaves on
    its condition: more fuel changes nothing. *)
Lemma for_down_fuel {A : Type} (body : Z -> A -> A) (fuel : nat) : forall i s,
  -1 <= i < 2 ^ 31 -> (Z.to_nat (i + 2) <= fuel)%nat ->
  for_down fuel i body s = for_down (Z.to_nat (i + 2)) i body s.
Proof.
  induction fuel as [| fuel IH]; intros i s Hi Hfuel; [lia |].
  replace (Z.to_nat (i + 2)) with (S (Z.to_nat (i + 1))) by lia.
  cbn [for_down].
  destruct (Z.leb_spec 0 i) as [H0 | H0]; [| reflexivity].
  rewrite int_small by lia.
  rewrite IH by lia. f_equal. lia.
Qed.

Lemma dbgprinthex8_unfold (num : Z) (out : list dbg_event) :
  dbgprinthex8 num out =
  let digit_char := fun v => if v <? 10 then 48 + v else 97 + (v - 10) in
  out ++ [DbgPutc (digit_char (Z.land (Z.shiftr (uint8_t num) 4) 0x0f));
          DbgPutc (digit_char (Z.land (Z.shiftr (uint8_t num) 0) 0x0f))].
Proof.
  unfold dbgprinthex8. cbv zeta.
  change (for_down 3 1 ?body out) with (body 0 (body 1 out)).
  cbv beta. change (Z.shiftl 1 2) with 4. change (Z.shiftl 0 2) with 0.
  unfold dbgputc.
  destruct (Z.land (Z.shiftr (uint8_t num) 4) 15 <? 10);
    destruct (Z.land (Z.shiftr (uint8_t num) 0) 15 <? 10);
    rewrite <- app_assoc; reflexivity.
Qed.

Lemma dbgprinthex8_app (num : Z) (out : list dbg_event) :
  dbgprinthex8 num out = out ++ dbgprinthex8 num [].
Proof. rewrite (dbgprinthex8_unfold num out), (dbgprinthex8_unfold num []). reflexivity. Qed.

Lemma dbgprinthex8_mod (num : Z) :
  dbgprinthex8 num [] = dbgprinthex8 (num mod 2 ^ 8) [].
Proof.
  rewrite !dbgprinthex8_unfold. unfold uint8_t.
  rewrite Z.mod_mod by lia. reflexivity.
Qed.

(** The 256 byte values, each printed and read back. *)
Lemma dbgprinthex8_table :
  forallb
    (fun n => match parse_hex (dbgprinthex8 n []) with
              | Some v => (v =? n) && Nat.eqb (length (dbgprinthex8 n [])) 2
              | None => false
              end)
    (map Z.of_nat (seq 0 256)) = true.
Proof. vm_compute. reflexivity. Qed.

Lemma dbgprinthex8_parse (num : Z) :
  parse_hex (dbgprinthex8 num []) = Some (num mod 2 ^ 8) /\
  length (dbgprinthex8 num []) = 2%nat.
Proof.
  rewrite (dbgprinthex8_mod num).
  pose proof (Z.mod_pos_bound num (2 ^ 8) ltac:(lia)) as Hn.
  pose proof dbgprinthex8_table as T. rewrite forallb_forall in T.
  specialize (T (num mod 2 ^ 8)).
  assert (Hin : In (num mod 2 ^ 8) (map Z.of_nat (seq 0 256))).
  { apply in_map_iff. exists (Z.to_nat (num mod 2 ^ 8)).
    split; [lia | apply in_seq; lia]. }
  specialize (T Hin).
  destruct (parse_hex (dbgprinthex8 (num mod 2 ^ 8) [])) as [v |]; [| discriminate].
  apply andb_true_iff in T. destruct T as [Tv Tl].
  apply Z.eqb_eq in Tv. apply Nat.eqb_eq in Tl. subst v. auto.
Qed.

Lemma parse_hex_from_app (l1 l2 : list dbg_event) : forall acc,
  parse_hex_from acc (l1 ++ l2) =
  match parse_hex_from acc l1 with
  | Some a => parse_hex_from a l2
  | None => None
  end.
Proof.
  induction l1 as [| e l1 IH]; intros acc; [reflexivity |].
  cbn [app parse_hex_from]. destruct e as [c | s]; [| reflexivity].
  destruct (hex_value c); [apply IH | reflexivity].
Qed.

Lemma parse_hex_from_shift (l : list dbg_event) : forall acc,
  parse_hex_from acc l =
  match parse_hex l with
  | Some v => Some (acc * 16 ^ Z.of_nat (length l) + v)
  | None => None
  end.
Proof.
  unfold parse_hex.
  induction l as [| e l IH]; intros acc.
  - cbn. f_equal. lia.
  - cbn [parse_hex_from length]. destruct e as [c | s]; [| reflexivity].
    destruct (hex_value c) as [v |]; [| reflexivity].
    rewrite (IH (acc * 16 + v)), (IH (0 * 16 + v)).
    destruct (parse_hex_from 0 l) as [w |]; [| reflexivity].
    f_equal. rewrite Nat2Z.inj_succ, Z.pow_succ_r by lia. ring.
Qed.

Lemma dbgprinthex8_parse_from (num acc : Z) :
  parse_hex_from acc (dbgprinthex8 num []) = Some (acc * 2 ^ 8 + num mod 2 ^ 8).
Proof.
  rewrite parse_hex_from_shift.
  destruct (dbgprinthex8_parse num) as [-> ->]. reflexivity.
Qed.

(** Printing bytes [i], [i - 1], ..., 0 of [n], most significant first. *)
Lemma print_bytes_down (n : Z) (fuel : nat) : forall i out,
  -1 <= i < 2 ^ 28 -> (Z.to_nat (i + 2) <= fuel)%nat -> 0 <= n ->
  exists cs,
    for_down fuel i
      (fun byte out =>
         dbgprinthex8 (uint8_t (Z.land (Z.shiftr n (Z.shiftl byte 3)) 0x0ff)) out)
      out = out ++ cs /\
    length cs = (2 * Z.to_nat (i + 1))%nat /\
    forall acc, parse_hex_from acc cs =
                Some (acc * 2 ^ (8 * (i + 1)) + n mod 2 ^ (8 * (i + 1))).
Proof.
  induction fuel as [| fuel IH]; intros i out Hi Hfuel Hn; [lia |].
  cbn [for_down].
  destruct (Z.leb_spec 0 i) as [H0 | H0].
  - rewrite int_small by lia.
    rewrite (dbgprinthex8_app _ out).
    destruct (IH (i - 1)
                (out ++ dbgprinthex8 (uint8_t (Z.land (Z.shiftr n (Z.shiftl i 3)) 255)) []))
      as (cs & E & L & P); [lia | lia | lia |].
    rewrite E, <- app_assoc.
    eexists. split; [reflexivity | split].
    + rewrite length_app, L.
      destruct (dbgprinthex8_parse (uint8_t (Z.land (Z.shiftr n (Z.shiftl i 3)) 255)))
        as [_ ->]. lia.
    + intros acc. rewrite parse_hex_from_app, dbgprinthex8_parse_from, P.
      f_equal.
      rewrite Z.shiftl_mul_pow2, Z.shiftr_div_pow2 by lia.
      change 255 with (Z.ones 8). rewrite Z.land_ones by lia.
      unfold uint8_t. rewrite !Z.mod_mod by lia.
      replace (i - 1 + 1) with i by lia.
      replace (8 * (i + 1)) with (8 * i + 8) by lia.
      replace (i * 2 ^ 3) with (8 * i) by lia.
      rewrite (Z.pow_add_r 2 (8 * i) 8) by lia.
      assert (Hp : 0 < 2 ^ (8 * i)) by (apply Z.pow_pos_nonneg; lia).
      rewrite (Z.rem_mul_r n (2 ^ (8 * i)) (2 ^ 8)) by lia.
      ring.
  - exists []. rewrite app_nil_r. replace i with (-1) by lia.
    split; [reflexivity | split; [reflexivity |]].
    intros acc. cbn [parse_hex_from]. f_equal.
    change (2 ^ (8 * (-1 + 1))) with 1. rewrite Z.mod_1_r. lia.
Qed.

(** X1: [dbgprinthex8] appends exactly two calls of [dbgputc] to the console
    output, both lower-case hexadecimal digits, and reading them back gives
    the argument as a [uint8_t]; the earlier output is untouched. *)
Theorem dbgprinthex8_round_trip (num : Z) (out : list dbg_event) :
  exists cs,
    dbgprinthex8 num out = out ++ cs /\
    length cs = 2%nat /\
    parse_hex cs = Some (num mod 2 ^ 8).
Proof.
  exists (dbgprinthex8 num []).
  destruct (dbgprinthex8_parse num) as [P L].
  split; [apply dbgprinthex8_app | split; assumption].
Qed.

(** X2: [dbgprinthex32] appends exactly eight hexadecimal digits, most
    significant first, and reading them back gives the argument as a
    [uint32_t]. *)
Theorem dbgprinthex32_round_trip (num : Z) (out : list dbg_event) :
  exists cs,
    dbgprinthex32 num out = out ++ cs /\
    length cs = 8%nat /\
    parse_hex cs = Some (num mod 2 ^ 32).
Proof.
  unfold dbgprinthex32. cbv zeta.
  pose proof (Z.mod_pos_bound num (2 ^ 32) ltac:(lia)) as Hn.
  destruct (print_bytes_down (uint32_t num) 5 3 out) as (cs & E & L & P);
    [lia | simpl; lia | unfold uint32_t; lia |].
  exists cs. split; [exact E | split; [exact L |]].
  unfold parse_hex. rewrite P. f_equal.
  change (2 ^ (8 * (3 + 1))) with (2 ^ 32). unfold uint32_t.
  rewrite Z.mod_mod by lia. lia.
Qed.

(** X3: [dbgprinthex64] appends exactly sixteen hexadecimal digits, most
    significant first, and reading them back gives the argument as a
    [uint64_t]. *)
Theorem dbgprinthex64_round_trip (num : Z) (out : list dbg_event) :
  exists cs,
    dbgprinthex64 num out = out ++ cs /\
    length cs = 16%nat /\
    parse_hex cs = Some (num mod 2 ^ 64).
Proof.
  unfold dbgprinthex64. cbv zeta.
  pose proof (Z.mod_pos_bound num (2 ^ 64) ltac:(lia)) as Hn.
  destruct (print_bytes_down (num mod 2 ^ 64) 9 7 out) as (cs & E & L & P);
    [lia | simpl; lia | lia |].
  exists cs. split; [exact E | split; [exact L |]].
  unfold parse_hex. rewrite P. f_equal.
  change (2 ^ (8 * (7 + 1))) with (2 ^ 64).
  rewrite Z.mod_mod by lia. lia.
Qed.

(** The dump loop at byte index [i], with [count_on_line] bytes left on the
    current line. *)
Lemma dbgprinthexbuf_loop_spec (fuel : nat) : forall buf len count_on_line out i,
  (Z.to_nat len <= fuel)%nat -> len <= Z.of_nat (length buf) -> len <= INT_MAX ->
  count_on_line = 16 - Z.of_nat i mod 16 ->
  dbgprinthexbuf_loop fuel buf len count_on_line out =
  out ++ hexdump i (firstn (Z.to_nat len) buf).
Proof.
  induction fuel as [| fuel IH]; intros buf len c out i Hfuel Hbuf Hmax Hc.
  - replace (Z.to_nat len) with 0%nat by lia. cbn. rewrite app_nil_r. reflexivity.
  - cbn [dbgprinthexbuf_loop].
    destruct (Z.ltb_spec 0 len) as [H0 | H0].
    + destruct buf as [| b rest]; cbn [length] in Hbuf; [lia |].
      unfold INT_MAX in Hmax.
      replace (Z.to_nat len) with (S (Z.to_nat (len - 1))) by lia.
      cbn [firstn hexdump skipn]. unfold deref8. cbn [hd].
      rewrite (int_small (len - 1)) by lia.
      pose proof (Z.mod_pos_bound (Z.of_nat i) 16 ltac:(lia)) as Hi.
      rewrite (int_small (c - 1)) by lia.
      rewrite (dbgprinthex8_app _ out).
      destruct (Z.eqb_spec (c - 1) 0) as [Ec | Ec].
      * assert (Hs : Z.of_nat (S i) mod 16 = 0).
        { rewrite Nat2Z.inj_succ. Z.div_mod_to_equations. lia. }
        rewrite Hs. cbn [Z.eqb].
        rewrite IH with (i := S i) by (unfold INT_MAX; lia).
        unfold dbgprint. rewrite <- !app_assoc. reflexivity.
      * assert (Hs : Z.of_nat (S i) mod 16 = Z.of_nat i mod 16 + 1).
        { rewrite Nat2Z.inj_succ. Z.div_mod_to_equations. lia. }
        assert (Hz : (Z.of_nat (S i) mod 16 =? 0) = false) by (apply Z.eqb_neq; lia).
        rewrite Hz.
        rewrite IH with (i := S i) by (unfold INT_MAX; lia).
        unfold dbgputc. rewrite <- !app_assoc. reflexivity.
    + replace (Z.to_nat len) with 0%nat by lia. cbn. rewrite app_nil_r. reflexivity.
Qed.

(** X4: [dbgprinthexbuf] appends, for each of the first [len] bytes in
    order, the two hex digits of the byte followed by one separator: the
    string "\r\n" after every sixteenth byte, a space after every other
    byte (also after the last one).  For [len <= 0] it prints nothing. *)
Theorem dbgprinthexbuf_layout (buf : list byte) (len : Z) (out : list dbg_event) :
  len <= Z.of_nat (length buf) -> len <= INT_MAX ->
  dbgprinthexbuf buf len out = out ++ hexdump 0 (firstn (Z.to_nat len) buf).
Proof.
  intros Hbuf Hmax. unfold dbgprinthexbuf.
  apply dbgprinthexbuf_loop_spec; [lia | assumption | assumption | reflexivity].
Qed.

Lemma dbgprinthexbuf_layout_witness :
  dbgprinthexbuf (repeat Byte.xa5 17) 17 [] =
  [] ++ hexdump 0 (firstn (Z.to_nat 17) (repeat Byte.xa5 17)).
Proof.
  apply (dbgprinthexbuf_layout (repeat Byte.xa5 17) 17 []);
    [simpl; lia | unfold INT_MAX; lia].
Defined.

Lemma hexdump_counts (buf : list byte) : forall i,
  Z.of_nat (length (hexdump i buf)) = 3 * Z.of_nat (length buf) /\
  Z.of_nat (length (filter is_line_break (hexdump i buf))) =
  (Z.of_nat i + Z.of_nat (length buf)) / 16 - Z.of_nat i / 16.
Proof.
  induction buf as [| b rest IH]; intros i.
  - cbn. rewrite Z.add_0_r. lia.
  - cbn [hexdump length]. destruct (IH (S i)) as [IL IB].
    rewrite !length_app, !filter_app, !length_app.
    destruct (dbgprinthex8_parse (byte.unsigned b)) as [_ L2].
    rewrite L2. cbn [length].
    assert (F : filter is_line_break (dbgprinthex8 (byte.unsigned b) []) = []).
    { rewrite dbgprinthex8_unfold. reflexivity. }
    rewrite F. cbn [length Nat.add].
    split; [lia |].
    rewrite !Nat2Z.inj_add, IB, !Nat2Z.inj_succ.
    destruct (Z.eqb_spec (Z.succ (Z.of_nat i) mod 16) 0) as [E | E];
      cbn [filter is_line_break length]; Z.div_mod_to_equations; lia.
Qed.

(** X5: for [0 <= len], [dbgprinthexbuf] makes three console calls per byte
    and exactly [len / 16] of them are line breaks: a buffer of fewer than
    16 bytes is dumped without any line break, and a dump never ends a
    partial line with one. *)
Theorem dbgprinthexbuf_counts (buf : list byte) (len : Z) (out : list dbg_event) :
  0 <= len -> len <= Z.of_nat (length buf) -> len <= INT_MAX ->
  Z.of_nat (length (dbgprinthexbuf buf len out)) = Z.of_nat (length out) + 3 * len /\
  Z.of_nat (length (filter is_line_break (dbgprinthexbuf buf len out))) =
  Z.of_nat (length (filter is_line_break out)) + len / 16.
Proof.
  intros H0 Hbuf Hmax. unfold dbgprinthexbuf.
  rewrite dbgprinthexbuf_loop_spec with (i := 0%nat)
    by (lia || assumption || reflexivity).
  destruct (hexdump_counts (firstn (Z.to_nat len) buf) 0) as [L B].
  rewrite filter_app, !length_app, !Nat2Z.inj_add, L, B.
  rewrite length_firstn. change (Z.of_nat 0) with 0.
  rewrite Z.add_0_l, Z.div_0_l by lia.
  replace (Z.of_nat (Nat.min (Z.to_nat len) (length buf))) with len by lia.
  lia.
Qed.

Lemma dbgprinthexbuf_counts_witness :
  Z.of_nat (length (dbgprinthexbuf (repeat Byte.xa5 40) 33 [])) =
  Z.of_nat (length (@nil dbg_event)) + 3 * 33 /\
  Z.of_nat (length (filter is_line_break (dbgprinthexbuf (repeat Byte.xa5 40) 33 []))) =
  Z.of_nat (length (filter is_line_break [])) + 33 / 16.
Proof.
  apply (dbgprinthexbuf_counts (repeat Byte.xa5 40) 33 []);
    [lia | simpl; lia | unfold INT_MAX; lia].
Defined.

Lemma get_endpoint_id_classifies_witness :
  fst (fst (get_endpoint_id chip_provisioned stand_in_digest false stale_endpoint_id boot_state)) = true <->
  ones_in (secret chip_provisioned) = 128.
Proof.
  apply (get_endpoint_id_classifies chip_provisioned stand_in_digest false
           stale_endpoint_id boot_state).
  simpl. lia.
Defined.

Lemma get_endpoint_id_simulation_witness :
  fst (fst (get_endpoint_id chip_provisioned stand_in_digest true stale_endpoint_id boot_state)) = true /\
  large_uint.low
    (snd (fst (get_endpoint_id chip_provisioned stand_in_digest true stale_endpoint_id boot_state)))
  = 0x12345678 /\
  large_uint.high
    (snd (fst (get_endpoint_id chip_provisioned stand_in_digest true stale_endpoint_id boot_state)))
  = 0x9ABCDEF0 /\
  trace (snd (get_endpoint_id chip_provisioned stand_in_digest true stale_endpoint_id boot_state)) =
  trace boot_state ++ [EvGetIms IMS_MEANINGFUL_LENGTH].
Proof.
  apply (get_endpoint_id_simulation chip_provisioned stand_in_digest true
           stale_endpoint_id boot_state).
  - reflexivity.
  - simpl. lia.
  - vm_compute. reflexivity.
Defined.

Lemma efuse_init_publishes_witness :
  fst (efuse_init chip_provisioned stand_in_digest 1 false stale_endpoint_id boot_state) = 0.
Proof.
  apply (efuse_init_publishes chip_provisioned stand_in_digest 1 false stale_endpoint_id boot_state).
  - vm_compute. reflexivity.
  - right. vm_compute. reflexivity.
  - right. vm_compute. reflexivity.
  - simpl. lia.
  - vm_compute. reflexivity.
  - reflexivity.
  - reflexivity.
Defined.

Lemma efuse_init_low_write_fails_witness :
  fst (efuse_init (chip_write_fails true) stand_in_digest 1 false stale_endpoint_id boot_state) = -1 /\
  last_error (snd (efuse_init (chip_write_fails true) stand_in_digest 1 false stale_endpoint_id boot_state))
  = BRE_EFUSE_ENDPOINT_ID_WRITE.
Proof.
  pose proof (efuse_init_low_write_fails (chip_write_fails true) stand_in_digest 1 false
                stale_endpoint_id boot_state) as H.
  assert (H1 : ecc_ok (chip_write_fails true) 1) by (vm_compute; reflexivity).
  assert (H2 : hamming_valid (vid_field (chip_write_fails true)))
    by (right; vm_compute; reflexivity).
  assert (H3 : hamming_valid (pid_field (chip_write_fails true)))
    by (right; vm_compute; reflexivity).
  assert (H4 : (32 <= length (ims (chip_write_fails true)))%nat) by (simpl; lia).
  assert (H5 : ones_in (secret (chip_write_fails true)) = 128)
    by (vm_compute; reflexivity).
  specialize (H H1 H2 H3 H4 H5).
  destruct H as (R & E & _); [simpl; discriminate | split; assumption].
Defined.

Lemma efuse_init_high_write_fails_witness :
  fst (efuse_init (chip_write_fails false) stand_in_digest 1 false stale_endpoint_id boot_state) = -1 /\
  last_error (snd (efuse_init (chip_write_fails false) stand_in_digest 1 false stale_endpoint_id boot_state))
  = BRE_EFUSE_ENDPOINT_ID_WRITE.
Proof.
  pose proof (efuse_init_high_write_fails (chip_write_fails false) stand_in_digest 1 false
                stale_endpoint_id boot_state) as H.
  assert (H1 : ecc_ok (chip_write_fails false) 1) by (vm_compute; reflexivity).
  assert (H2 : hamming_valid (vid_field (chip_write_fails false)))
    by (right; vm_compute; reflexivity).
  assert (H3 : hamming_valid (pid_field (chip_write_fails false)))
    by (right; vm_compute; reflexivity).
  assert (H4 : (32 <= length (ims (chip_write_fails false)))%nat) by (simpl; lia).
  assert (H5 : ones_in (secret (chip_write_fails false)) = 128)
    by (vm_compute; reflexivity).
  specialize (H H1 H2 H3 H4 H5).
  destruct H as (R & E & _); [reflexivity | simpl; discriminate | split; assumption].
Defined.

Lemma efuse_init_writes_only_validated_witness :
  ecc_ok chip_provisioned 1 /\
  hamming_valid (vid_field chip_provisioned) /\
  hamming_valid (pid_field chip_provisioned) /\
  ones_in (secret chip_provisioned) = 128.
Proof.
  apply (efuse_init_writes_only_validated chip_provisioned stand_in_digest 1 false
           stale_endpoint_id boot_state).
  - simpl. lia.
  - vm_compute. reflexivity.
Defined.

Lemma efuse_init_keeps_secret_in_buffer_witness :
  firstn 32
    (ims_value (snd (efuse_init chip_bad_secret stand_in_digest 1 false stale_endpoint_id boot_state)))
  = secret chip_bad_secret.
Proof.
  apply (efuse_init_keeps_secret_in_buffer chip_bad_secret stand_in_digest 1 false
           stale_endpoint_id boot_state).
  - vm_compute. reflexivity.
  - right. vm_compute. reflexivity.
  - right. vm_compute. reflexivity.
  - simpl. lia.
Defined.

Lemma efuse_init_return_code_witness :
  (fst (efuse_init chip_bad_pid stand_in_digest 1 true stale_endpoint_id boot_state) = 0 /\
   last_error (snd (efuse_init chip_bad_pid stand_in_digest 1 true stale_endpoint_id boot_state))
   = BRE_OK) \/
  (fst (efuse_init chip_bad_pid stand_in_digest 1 true stale_endpoint_id boot_state) = -1 /\
   last_error (snd (efuse_init chip_bad_pid stand_in_digest 1 true stale_endpoint_id boot_state))
   <> BRE_OK).
Proof.
  apply (efuse_init_return_code chip_bad_pid stand_in_digest 1 true stale_endpoint_id boot_state).
  reflexivity.
Defined.
